(** * Legal-AI backend: the query-processing pipelines

    A shallow embedding of the decision logic of the repository:
    - [safety.py]  : the regular-expression safety classifier and its canned
                     responses;
    - [app.py]     : the legacy handler [handle_message] and its endpoint;
    - [app/rag.py] : the RAG pipeline ([_is_illegal_query],
                     [_extract_citations], [_retrieve_context],
                     [process_query]);
    - [app/vectorstore.py], [app/main.py], [llm_fallback_gemini.py].

    Text is modelled as Python has it: a [str] is a sequence of Unicode code
    points, and lengths and slices count code points.  Three built-ins depend
    on the Unicode character database: [str.lower], the class [\w] of [re]
    (and with it [\b]), and the whitespace that [str.strip] removes.  They
    are the methods of the class [Tables]; the few facts the proofs need
    about them are the laws of that class, and every result below holds for
    all tables that obey the laws.  [ascii_tables] are the tables cut down to
    the ASCII range, on which the model can be run on ASCII examples.

    The external capabilities (the legacy generation call, the vector search
    and the LLM of the RAG system) are oracles that may answer or raise;
    every call is recorded in a trace, so that "no call was made" is a
    statement about the trace.  Logging is not modelled. *)

From Stdlib Require Import Ascii String QArith NArith.
From stdpp Require Import gmap strings list pretty.

Local Open Scope nat_scope.
Local Open Scope list_scope.

(** A character: a Unicode code point. *)
Abbreviation char := N.

(** Python's [str]. *)
Abbreviation str := (list N).

(** The text of an ASCII literal. *)
Definition ascii_str (s : string) : str := N_of_ascii <$> list_ascii_of_string s.

(** String literals are written [$"..."]. *)
Notation "$ s" := (ascii_str s%string) (at level 1, s at level 0, format "$ s").

(** ** Text operations (Python built-ins on [str]) *)

Module Text.

(** ["\n"] *)
Definition NL : str := [10%N].

(** [s.startswith(p)] *)
Fixpoint startswith (p s : str) : bool :=
  match p, s with
  | [], _ => true
  | _ :: _, [] => false
  | a :: p', b :: s' => bool_decide (a = b) && startswith p' s'
  end.

(** [sub in s] *)
Fixpoint contains (sub s : str) : bool :=
  startswith sub s ||
  match s with
  | [] => false
  | _ :: s' => contains sub s'
  end.

(** The number of positions of [s] at which [sub] occurs. *)
Fixpoint occurrences (sub s : str) : nat :=
  (if startswith sub s then 1 else 0) +
  match s with
  | [] => 0
  | _ :: s' => occurrences sub s'
  end.

(** [sep.join(parts)] *)
Fixpoint join (sep : str) (parts : list str) : str :=
  match parts with
  | [] => []
  | [p] => p
  | p :: rest => p ++ sep ++ join sep rest
  end.

(** [sub] is unbordered: no proper non-empty prefix of it is also a suffix
    of it.  Occurrences of such a text never overlap. *)
Definition unbordered (sub : str) : bool :=
  forallb (fun m => negb (bool_decide (take (length sub - m) sub = drop m sub)))
          (seq 1 (length sub - 1)).

(** No proper suffix of [a] that is shorter than [p] is a prefix of [p]:
    an occurrence of [p] in [a ++ x] lies within [a] or within [x]. *)
Fixpoint no_straddle (p a : str) : bool :=
  match a with
  | [] => true
  | _ :: a' =>
      ((length p <=? length a) || negb (startswith a p)) && no_straddle p a'
  end.

(** *** The ASCII range *)

(** [c] is an ASCII character. *)
Definition ascii_char (c : char) : bool := (c <? 128)%N.

(** [s.isascii()] *)
Definition is_ascii (s : str) : bool := forallb ascii_char s.

(** [c.lower()] for an ASCII character: only [A-Z] changes. *)
Definition ascii_lower (c : char) : char :=
  if ((65 <=? c) && (c <=? 90))%N then (c + 32)%N else c.

(** [\w] on the ASCII range: letters, digits and the underscore. *)
Definition ascii_word (c : char) : bool :=
  (((48 <=? c) && (c <=? 57)) || ((65 <=? c) && (c <=? 90))
   || ((97 <=? c) && (c <=? 122)) || (c =? 95))%N.

(** [c.isspace()] on the ASCII range: tab to carriage return, the four
    separators 28 to 31, and the space. *)
Definition ascii_space (c : char) : bool :=
  (((9 <=? c) && (c <=? 13)) || ((28 <=? c) && (c <=? 32)))%N.

(** *** The built-ins that depend on the Unicode character database *)

Class Tables : Type := {
  (** [s.lower()].  It is a function of the whole text: the lower-case form
      of a capital sigma depends on its neighbours, and one character may
      become two. *)
  lower : str -> str;
  (** [\w] of [re] on a [str] pattern: the alphanumeric characters of
      Unicode and the underscore. *)
  is_word : char -> bool;
  (** [c.isspace()]: the characters [str.strip()] removes. *)
  is_space : char -> bool;
  (** On ASCII text, [lower] maps [A-Z] to [a-z] and changes nothing else. *)
  lower_ascii (s : str) : is_ascii s = true -> lower s = ascii_lower <$> s;
  (** [lower] works line by line: the lower-case form of a character
      depends at most on the cased and case-ignorable characters next to it
      (the rule for a final sigma), and a newline is neither. *)
  lower_lines (a b : str) : lower (a ++ NL ++ b) = lower a ++ NL ++ lower b;
  (** ASCII text found in the lower-case form of a text is found in the
      lower-case form of every text around it: the only character whose
      lower-case form depends on its neighbours, the capital sigma, has no
      ASCII form. *)
  lower_embed (keyword pre s post : str) :
    is_ascii keyword = true ->
    contains keyword (lower s) = true ->
    contains keyword (lower (pre ++ s ++ post)) = true;
  (** On the ASCII range, [\w] is [[a-zA-Z0-9_]]. *)
  is_word_ascii (c : char) : ascii_char c = true -> is_word c = ascii_word c
}.

(** The tables cut down to the ASCII range: no character outside it has a
    lower-case form, is a word character or is whitespace.  On ASCII text
    they agree with Python. *)
Program Definition ascii_tables : Tables :=
  {| lower := fmap ascii_lower; is_word := ascii_word; is_space := ascii_space |}.
Next Obligation. done. Qed.
Next Obligation. intros a b. by rewrite !fmap_app. Qed.
Next Obligation.
  intros keyword pre s post _. rewrite !fmap_app.
  generalize (ascii_lower <$> pre) (ascii_lower <$> s) (ascii_lower <$> post).
  clear. intros x y z Hy.
  assert (Hstart : forall p a b, startswith p a = true -> startswith p (a ++ b) = true).
  { induction p as [|c p IH]; intros a b; [done|].
    destruct a as [|d a]; [done|]. simpl.
    rewrite !andb_true_iff. intros [? ?]. split; [done | by apply IH]. }
  assert (Hleft : contains keyword (y ++ z) = true).
  { revert Hy. induction y as [|c y IH]; simpl.
    - rewrite orb_false_r. intros Hy.
      assert (keyword = []) as -> by (by destruct keyword). by destruct z.
    - rewrite !orb_true_iff. intros [Hy | Hy]; [left; by apply (Hstart _ (c :: y)) | right; by apply IH]. }
  induction x as [|c x IH]; simpl; [done|]. by rewrite IH, orb_true_r.
Qed.
Next Obligation. done. Qed.

End Text.

(** ** A model of the fragment of Python's [re] used by [safety.py] *)

Module Regex.
Import Text.

Inductive regex : Type :=
| Eps                       (* the empty pattern *)
| Chr (c : char)            (* a literal character *)
| Dot                       (* [.] : any character but a newline *)
| Bnd                       (* [\b] : a word boundary *)
| Seq (r1 r2 : regex)       (* concatenation *)
| Alt (r1 r2 : regex)       (* [r1|r2] *)
| Star (r : regex).         (* [r*] *)

(** A literal text. *)
Fixpoint Lit (s : str) : regex :=
  match s with
  | [] => Eps
  | c :: s' => Seq (Chr c) (Lit s')
  end.

Definition is_newline (c : char) : bool := bool_decide (c = 10%N).

Section Matching.
Context `{U : Tables}.

(** Is there a word character ([\w]) at position [i]? *)
Definition word_at (s : str) (i : nat) : bool :=
  match s !! i with
  | Some c => is_word c
  | None => false
  end.

(** [\b] holds at [i] when exactly one of the characters before and after
    position [i] is a word character (the outside of the text counts as a
    non-word character). *)
Definition boundary (s : str) (i : nat) : bool :=
  xorb (match i with 0 => false | S i' => word_at s i' end) (word_at s i).

(** Declarative semantics: [matches s r i j] when [r] matches the text [s]
    from position [i] up to position [j]. *)
Inductive matches (s : str) : regex -> nat -> nat -> Prop :=
| m_eps i : matches s Eps i i
| m_chr c i : s !! i = Some c -> matches s (Chr c) i (S i)
| m_dot c i : s !! i = Some c -> is_newline c = false -> matches s Dot i (S i)
| m_bnd i : boundary s i = true -> matches s Bnd i i
| m_seq r1 r2 i j k :
    matches s r1 i j -> matches s r2 j k -> matches s (Seq r1 r2) i k
| m_alt_l r1 r2 i j : matches s r1 i j -> matches s (Alt r1 r2) i j
| m_alt_r r1 r2 i j : matches s r2 i j -> matches s (Alt r1 r2) i j
| m_star_nil r i : matches s (Star r) i i
| m_star_step r i j k :
    matches s r i j -> matches s (Star r) j k -> matches s (Star r) i k.

(** [p] matches somewhere in [t]. *)
Definition matches_in (p : regex) (t : str) : Prop :=
  exists i j, i <= length t /\ matches t p i j.

(** Iteration of a one-step matcher; only steps that consume text are
    iterated, so [length s - i] rounds suffice from position [i]. *)
Fixpoint star_ends (step : nat -> list nat) (fuel : nat) (i : nat) : list nat :=
  i :: match fuel with
       | 0 => []
       | S fuel' =>
           filter (fun j => i < j) (step i) ≫= star_ends step fuel'
       end.

(** The executable matcher: all end positions of a match of [r] that
    starts at [i]. *)
Fixpoint ends (r : regex) (s : str) (i : nat) : list nat :=
  match r with
  | Eps => [i]
  | Chr c =>
      match s !! i with
      | Some c' => if bool_decide (c' = c) then [S i] else []
      | None => []
      end
  | Dot =>
      match s !! i with
      | Some c' => if is_newline c' then [] else [S i]
      | None => []
      end
  | Bnd => if boundary s i then [i] else []
  | Seq r1 r2 => ends r1 s i ≫= ends r2 s
  | Alt r1 r2 => ends r1 s i ++ ends r2 s i
  | Star r' => star_ends (ends r' s) (length s) i
  end.

Definition match_at (r : regex) (s : str) (i : nat) : bool :=
  match ends r s i with
  | [] => false
  | _ :: _ => true
  end.

(** [re.search(p, t)] seen as a truth value: is there a match of [p]
    starting at some position of [t]? *)
Definition search (p : regex) (t : str) : bool :=
  existsb (match_at p t) (seq 0 (S (length t))).
End Matching.

End Regex.

(** ** safety.py *)

Module Safety.
Import Text Regex.

(** [\bw\b] *)
Definition word (w : str) : regex := Seq Bnd (Seq (Lit w) Bnd).

Definition ILLEGAL : list regex :=
  [ word $"forge";
    (* \bfake\b.*\b(doc|document|evidence)\b *)
    Seq (word $"fake")
        (Seq (Star Dot)
             (Seq Bnd
                  (Seq (Alt (Lit $"doc") (Alt (Lit $"document") (Lit $"evidence")))
                       Bnd)));
    word $"bribe";
    word $"blackmail";
    word $"extort";
    word $"threaten" ].

Definition EMERGENCY : list regex :=
  [ word $"violence";
    word $"assault";
    word $"rape";
    word $"stalking";
    word $"kill myself";
    word $"suicide" ].

Section Classifier.
Context `{U : Tables}.

(** [any(re.search(p, t) for p in patterns)] *)
Definition any_search (patterns : list regex) (t : str) : bool :=
  existsb (fun p => search p t) patterns.

(** [classify(text)]; [None] stands for Python's [None]. *)
Definition classify (text : option str) : str :=
  let t := lower (default [] text) in
  if any_search EMERGENCY t then $"emergency"
  else if any_search ILLEGAL t then $"illegal"
  else $"ok".
End Classifier.

Definition DISCLAIMER_SENTENCE : str :=
  $"This is general information, not legal advice.".

(** The apostrophe of the first sentence is the right single quotation
    mark, U+2019. *)
Definition CANNED_ILLEGAL : str :=
  $"I can" ++ [8217%N] ++ $"t help with anything illegal or harmful." ++ NL ++
  DISCLAIMER_SENTENCE ++ NL ++
  $"If you explain what happened, I can suggest lawful options (reporting channels, evidence preservation, and next steps).".

Definition CANNED_EMERGENCY : str :=
  $"If you are in immediate danger, contact emergency services now." ++ NL ++
  $"In India you can call 112." ++ NL ++
  DISCLAIMER_SENTENCE.

(** [canned_response(label)] *)
Definition canned_response (label : str) : str :=
  if bool_decide (label = $"illegal") then CANNED_ILLEGAL
  else if bool_decide (label = $"emergency") then CANNED_EMERGENCY
  else [].

End Safety.

(** ** External capabilities: calls, failures and the trace of calls *)

Module Eff.

(** A Python exception: the name of its class and its message. *)
Inductive exn : Type := Exception (kind msg : str).

(** The calls the pipelines make to the outside. *)
Inductive event : Type :=
| EvGenerate (system user : str)
    (* llm_fallback_gemini.generate(system=..., user=...) *)
| EvRetrieve (k : nat) (score_threshold : Q) (query : str)
    (* retriever.invoke(query), on a retriever with these settings *)
| EvLlmInvoke (prompt : str).
    (* self.llm.invoke(prompt) *)

Definition trace := list event.

(** A computation reads the trace of the calls made so far, extends it and
    either returns a value or raises. *)
Definition M (A : Type) : Type := trace -> trace * (exn + A).

Definition ret {A} (a : A) : M A := fun t => (t, inr a).

Definition raise {A} (e : exn) : M A := fun t => (t, inl e).

Definition bind {A B} (m : M A) (f : A -> M B) : M B :=
  fun t =>
    match m t with
    | (t', inl e) => (t', inl e)
    | (t', inr a) => f a t'
    end.

(** [try: m except Exception as e: handler(e)] *)
Definition try_except {A} (m : M A) (handler : exn -> M A) : M A :=
  fun t =>
    match m t with
    | (t', inl e) => handler e t'
    | (t', inr a) => (t', inr a)
    end.

(** A step that makes no call: it returns or raises. *)
Definition lift {A} (outcome : exn + A) : M A := fun t => (t, outcome).

(** An external call: the oracle sees the calls made before this one. *)
Definition call {A} (ev : event) (oracle : trace -> exn + A) : M A :=
  fun t => (t ++ [ev], oracle t).

Definition is_llm_call (ev : event) : bool :=
  match ev with
  | EvGenerate _ _ | EvLlmInvoke _ => true
  | EvRetrieve _ _ _ => false
  end.

End Eff.

Notation "'do' x <- m ; k" := (Eff.bind m (fun x => k))
  (at level 10, x name, m at level 100, k at level 200).
Notation "'do' ' pat <- m ; k" := (Eff.bind m (fun x => match x with pat => k end))
  (at level 10, pat pattern, m at level 100, k at level 200).

(** ** app.py: the legacy handler *)

Module Legacy.
Import Text Safety Eff.

(** [class ChatRes(BaseModel)] *)
Record ChatRes : Type := mkChatRes {
  reply : str;
  safety : str;
  provider : str
}.

(** The fields a [ChatRes] is serialised with, in declaration order. *)
Definition ChatRes_dump (r : ChatRes) : list (str * str) :=
  [ ($"reply", reply r); ($"safety", safety r); ($"provider", provider r) ].

Definition SYSTEM_STYLE : str :=
  $"You are a Legal Awareness Assistant for India." ++ NL ++
  $"Rules:" ++ NL ++
  $"1) Always include: 'This is general information, not legal advice.'" ++ NL ++
  $"2) Use simple language and bullet-point steps." ++ NL ++
  $"3) Do not help with illegal or harmful actions." ++ NL ++
  $"4) If unsure, say so and suggest checking official sources or consulting a lawyer/legal aid." ++ NL.

(** What [handle_message] puts in front of a reply without disclaimer. *)
Definition DISCLAIMER_PREFIX : str :=
  $"This is general information, not legal advice." ++ NL ++ NL.

Section Handler.
Context `{U : Tables}.

(** The "hard-enforce disclaimer" step of [handle_message], as a function
    of the text the model returned. *)
Definition enforced (out : str) : str :=
  if negb (contains $"not legal advice" (lower out))
  then DISCLAIMER_PREFIX ++ out else out.

(** [FALLBACK_PROVIDER], read from the environment at start-up. *)
Variable FALLBACK_PROVIDER : str.
(** [llm_fallback_gemini.generate]: the text it returns or the
    exception it raises, given the calls made so far. *)
Variable generate_oracle : trace -> str -> str -> exn + str.

Definition fallback_generate (system user : str) : M str :=
  call (EvGenerate system user) (fun t => generate_oracle t system user).

(** [handle_message(user_id, message)] *)
Definition handle_message (user_id : option str) (message : str) : M ChatRes :=
  let label := classify (Some message) in
  (* Safety first: do not call model *)
  if bool_decide (label ∈ [$"illegal"; $"emergency"]) then
    ret (mkChatRes (canned_response label) label $"rules")
  else
    (* Call fallback model *)
    do reply <- fallback_generate SYSTEM_STYLE message;
    (* Hard-enforce disclaimer *)
    let reply :=
      if negb (contains $"not legal advice" (lower reply))
      then DISCLAIMER_PREFIX ++ reply
      else reply in
    ret (mkChatRes reply $"ok" FALLBACK_PROVIDER).
End Handler.

End Legacy.

(** ** app/rag.py: the RAG pipeline *)

Module Rag.
Import Text Eff.

(** A metadata value: a string or a number. *)
Inductive value : Type :=
| VStr (s : str)
| VInt (n : Z).

(** [str(v)], also what an f-string inserts for [{v}]. *)
Definition py_str (v : value) : str :=
  match v with
  | VStr s => s
  | VInt n => ascii_str (pretty n)
  end.

(** [langchain_core.documents.Document] *)
Record Document : Type := mkDocument {
  page_content : str;
  metadata : gmap str value
}.

(** A citation dictionary; [section] and [page] are the optional keys. *)
Record Citation : Type := mkCitation {
  source_title : value;
  source : value;
  snippet : str;
  section : option value;
  page : option str
}.

(** The dictionary returned by [process_query]. *)
Record AnswerResult : Type := mkAnswerResult {
  answer : str;
  citations : list Citation;
  has_context : bool
}.

Definition LEGAL_DISCLAIMER : str :=
  NL ++ NL ++ $"**Disclaimer:** This is general legal information, not legal advice.".

Definition ILLEGAL_KEYWORDS : list str :=
  [ $"evade"; $"avoid arrest"; $"hide crime"; $"commit fraud"; $"forge";
    $"illegal drug"; $"smuggle"; $"bribe"; $"money laundering"; $"tax evasion";
    $"hack"; $"break law"; $"get away with"; $"cover up crime" ].

(** The answer of the safety branch of [process_query], before the
    disclaimer. *)
Definition ILLEGAL_ANSWER : str :=
  $"I cannot provide guidance on illegal activities. If you have questions about legal compliance or your rights, I'm happy to help with that instead.".

Section Keywords.
Context `{U : Tables}.

(** [_is_illegal_query(query)] *)
Definition _is_illegal_query (query : str) : bool :=
  let query_lower := lower query in
  existsb (fun keyword => contains keyword query_lower) ILLEGAL_KEYWORDS.
End Keywords.

(** [doc.page_content[:200] + "..." if len(doc.page_content) > 200
     else doc.page_content] *)
Definition content_snippet (content : str) : str :=
  if 200 <? length content then take 200 content ++ $"..." else content.

(** [metadata.get("source", "Unknown Source")] *)
Definition doc_source (doc : Document) : value :=
  default (VStr $"Unknown Source") (metadata doc !! $"source").

(** [f"{source}_{content_snippet[:50]}"] *)
Definition source_id (doc : Document) : str :=
  py_str (doc_source doc) ++ $"_" ++ take 50 (content_snippet (page_content doc)).

(** The citation dictionary built for one document. *)
Definition make_citation (doc : Document) : Citation :=
  {| source_title := default (doc_source doc) (metadata doc !! $"title");
     source := doc_source doc;
     snippet := content_snippet (page_content doc);
     section := metadata doc !! $"section";
     page := py_str <$> (metadata doc !! $"page") |}.

(** One round of the loop of [_extract_citations]; the state is the pair
    of [citations] and [seen_sources]. *)
Definition extract_step (st : list Citation * gset str) (doc : Document)
  : list Citation * gset str :=
  let '(citations, seen_sources) := st in
  if bool_decide (source_id doc ∈ seen_sources) then st
  else (citations ++ [make_citation doc], {[source_id doc]} ∪ seen_sources).

(** [_extract_citations(documents)] *)
Definition _extract_citations (documents : list Document) : list Citation :=
  fst (foldl extract_step ([], ∅) documents).

(** [f"[Source {i}: {source}]\n{doc.page_content}\n"] *)
Definition context_part (i : nat) (doc : Document) : str :=
  $"[Source " ++ ascii_str (pretty i) ++ $": " ++
  py_str (default (VStr $"Unknown") (metadata doc !! $"source")) ++ $"]" ++ NL ++
  page_content doc ++ NL.

(** The context string built from a non-empty list of documents. *)
Definition format_context (documents : list Document) : str :=
  join (NL ++ $"---" ++ NL) (imap (fun i doc => context_part (S i) doc) documents).

(** The prompt of the direct (non-grounded) query. *)
Definition fallback_prompt (query : str) : str :=
  $"You are a helpful legal AI assistant. Answer the following question to the best of your ability:" ++
  NL ++ NL ++ $"Question: " ++ query ++ NL ++ NL ++
  $"Provide a clear and accurate answer.".

(** [not x] for a Python string or list. *)
Definition is_empty {A} (l : list A) : bool :=
  match l with
  | [] => true
  | _ :: _ => false
  end.

Section Pipeline.
Context `{U : Tables}.
(** The retriever object. *)
Variable Retriever : Type.
(** [self.vector_store_manager.get_retriever(k, score_threshold)]: the
    retriever, or the exception raised; no search is made yet. *)
Variable get_retriever : nat -> Q -> exn + Retriever.
(** [retriever.invoke(query)]: the vector search; it answers with documents
    or raises. *)
Variable invoke_oracle : trace -> Retriever -> str -> exn + list Document.
(** [self.llm.invoke(prompt).content], or the exception raised. *)
Variable llm_oracle : trace -> str -> exn + str.
(** [self.prompt_template.format(context=..., question=...)]: the
    template object is built by LangChain from [SYSTEM_PROMPT]. *)
Variable prompt_template_format : str -> str -> str.

Definition llm_invoke (prompt : str) : M str :=
  call (EvLlmInvoke prompt) (fun t => llm_oracle t prompt).

(** [_retrieve_context(query, k)], over the manager of the system. *)
Definition retrieve_context_via (query : str) (k : nat) : M (str * list Document) :=
  try_except
    ((* Get retriever *)
     do retriever <- lift (get_retriever k (3 # 10));
     (* Retrieve relevant documents *)
     do documents <- call (EvRetrieve k (3 # 10) query)
                          (fun t => invoke_oracle t retriever query);
     if is_empty documents then ret ([], [])
     else ret (format_context documents, documents))
    (fun e => raise e).

(** [process_query(query)], over the manager of the system. *)
Definition process_query_via (query : str) : M AnswerResult :=
  try_except
    ((* Safety check for illegal queries *)
     if _is_illegal_query query then
       ret (mkAnswerResult (ILLEGAL_ANSWER ++ LEGAL_DISCLAIMER) [] false)
     else
       (* Retrieve relevant context *)
       do '(context, documents) <- retrieve_context_via query 10;
       (* If no context found, query LLM directly without RAG *)
       if is_empty context || is_empty documents then
         do response <- llm_invoke (fallback_prompt query);
         ret (mkAnswerResult (response ++ LEGAL_DISCLAIMER) [] false)
       else
         (* Generate answer using LLM with retrieved context *)
         let prompt := prompt_template_format context query in
         do response <- llm_invoke prompt;
         let answer := response in
         (* Check if LLM couldn't answer from context *)
         if contains $"don't have enough" (lower answer)
            || contains $"insufficient information" (lower answer)
         then
           do response <- llm_invoke (fallback_prompt query);
           ret (mkAnswerResult (response ++ LEGAL_DISCLAIMER) [] true)
         else
           ret (mkAnswerResult (answer ++ LEGAL_DISCLAIMER) [] true))
    (fun e => raise e).
End Pipeline.

(** [_retrieve_context] and [process_query] over a manager that hands out
    a retriever on every request, the retriever being its settings
    [(k, score_threshold)]: the vector search is then one oracle,
    [get_retriever(k, score_threshold).invoke(query)]. *)
Section SearchOracle.
Context `{U : Tables}.
Variable search_oracle : trace -> nat -> Q -> str -> exn + list Document.
Variable llm_oracle : trace -> str -> exn + str.
Variable prompt_template_format : str -> str -> str.

Definition settings_retriever (k : nat) (score_threshold : Q) : exn + nat * Q :=
  inr (k, score_threshold).

Definition settings_invoke (t : trace) (retriever : nat * Q) (query : str)
  : exn + list Document :=
  search_oracle t retriever.1 retriever.2 query.

Definition _retrieve_context (query : str) (k : nat) : M (str * list Document) :=
  retrieve_context_via (nat * Q) settings_retriever settings_invoke query k.

Definition process_query (query : str) : M AnswerResult :=
  process_query_via (nat * Q) settings_retriever settings_invoke
                    llm_oracle prompt_template_format query.
End SearchOracle.

(** *** The deduplication of citations, as the data model describes it *)

Global Instance value_eq_dec : EqDecision value.
Proof. solve_decision. Defined.

(** The composite key of a passage: its source and the first 50
    characters of its snippet. *)
Definition passage_key (doc : Document) : value * str :=
  (doc_source doc, take 50 (content_snippet (page_content doc))).

(** The same key, read off a citation. *)
Definition citation_key (c : Citation) : value * str :=
  (source c, take 50 (snippet c)).

(** The identifier of [_extract_citations], read off a citation. *)
Definition citation_id (c : Citation) : str :=
  py_str (source c) ++ $"_" ++ take 50 (snippet c).

(** The elements of [l] that are the first of [l] with their key, in the
    order of [l]. *)
Fixpoint first_occurrences {A K : Type} `{EqDecision K} (key : A -> K) (l : list A) : list A :=
  match l with
  | [] => []
  | x :: l' => x :: filter (fun y => key y <> key x) (first_occurrences key l')
  end.

(** The loop of [_extract_citations] as a recursion on the documents that
    remain, from a given set of identifiers already seen. *)
Fixpoint extract_from (seen_sources : gset str) (documents : list Document)
  : list Citation :=
  match documents with
  | [] => []
  | doc :: rest =>
      if bool_decide (source_id doc ∈ seen_sources) then extract_from seen_sources rest
      else make_citation doc :: extract_from ({[source_id doc]} ∪ seen_sources) rest
  end.

(** *** Names for the stages of a run of [process_query] *)

(** The trace after the retrieval call. *)
Definition after_retrieval (query : str) (t : trace) : trace :=
  t ++ [EvRetrieve 10 (3 # 10) query].

(** The trace after the grounded LLM call, whose prompt is [prompt]. *)
Definition after_grounded (prompt query : str) (t : trace) : trace :=
  after_retrieval query t ++ [EvLlmInvoke prompt].

(** The result built from the outcome of the last LLM call. *)
Definition finish (has_ctx : bool) (outcome : exn + str) : exn + AnswerResult :=
  match outcome with
  | inl e => inl e
  | inr out => inr (mkAnswerResult (out ++ LEGAL_DISCLAIMER) [] has_ctx)
  end.

(** The test [process_query] applies to the grounded answer. *)
Definition insufficient `{U : Tables} (out : str) : bool :=
  contains $"don't have enough" (lower out)
  || contains $"insufficient information" (lower out).

End Rag.


(** ** What the patterns of [safety.py] say about a text *)

Module SafetyWords.
Import Text Regex Safety.

(** The words of the single-word patterns of the two tiers. *)
Definition EMERGENCY_WORDS : list str :=
  [ $"violence"; $"assault"; $"rape"; $"stalking"; $"kill myself"; $"suicide" ].

Definition ILLEGAL_WORDS : list str :=
  [ $"forge"; $"bribe"; $"blackmail"; $"extort"; $"threaten" ].

(** The second pattern of [ILLEGAL]. *)
Definition FAKE_PATTERN : regex :=
  Seq (word $"fake")
      (Seq (Star Dot)
           (Seq Bnd
                (Seq (Alt (Lit $"doc") (Alt (Lit $"document") (Lit $"evidence")))
                     Bnd))).

Section Words.
Context `{U : Tables}.

(** Does the text start, or end, with a word character ([\w])? *)
Definition head_word (s : str) : bool :=
  match head s with
  | Some c => is_word c
  | None => false
  end.

Definition last_word (s : str) : bool :=
  match last s with
  | Some c => is_word c
  | None => false
  end.

(** [w] occurs in [t] as a whole word: neither preceded nor followed by a
    word character. *)
Definition whole_word (w t : str) : Prop :=
  exists pre post,
    t = pre ++ w ++ post /\ last_word pre = false /\ head_word post = false.

(** The whole word "fake", followed on the same line, after at least one
    character and not directly after or before a word character, by one of
    the whole words "doc", "document", "evidence". *)
Definition fake_evidence (t : str) : Prop :=
  exists pre mid x post,
    t = pre ++ $"fake" ++ mid ++ x ++ post /\
    x ∈ [$"doc"; $"document"; $"evidence"] /\
    last_word pre = false /\
    mid <> [] /\ head_word mid = false /\ last_word mid = false /\
    (forall c, c ∈ mid -> is_newline c = false) /\
    head_word post = false.
End Words.

End SafetyWords.

(** ** Whitespace ([str.strip]) *)

Module Whitespace.
Import Text.

Section Strip.
Context `{U : Tables}.

(** [s.lstrip()] *)
Fixpoint lstrip (s : str) : str :=
  match s with
  | [] => []
  | c :: s' => if is_space c then lstrip s' else s
  end.

(** [s.rstrip()] *)
Definition rstrip (s : str) : str := reverse (lstrip (reverse s)).

(** [s.strip()] *)
Definition strip (s : str) : str := rstrip (lstrip s).

(** Does the text start, or end, with a whitespace character? *)
Definition head_space (s : str) : bool :=
  match head s with
  | Some c => is_space c
  | None => false
  end.

Definition last_space (s : str) : bool :=
  match last s with
  | Some c => is_space c
  | None => false
  end.

(** The text consists of whitespace only. *)
Definition all_space (s : str) : Prop := Forall (fun c => is_space c = true) s.
End Strip.

End Whitespace.

(** ** app/vectorstore.py: the vector store manager *)

Module VectorStore.
Import Text Eff Rag.

Section Store.
(** The Chroma store object. *)
Variable Chroma : Type.

(** [class VectorStoreManager]; [vector_store] is [None] until the store is
    initialised. *)
Record VectorStoreManager : Type := mkVectorStoreManager {
  persist_directory : str;
  google_api_key : str;
  vector_store : option Chroma
}.

(** What [as_retriever] returns: the store with the search settings. *)
Record Retriever : Type := mkRetriever {
  retriever_store : Chroma;
  search_type : str;
  retriever_k : nat;
  retriever_score_threshold : Q
}.

Definition NOT_INITIALIZED : exn :=
  Exception $"RuntimeError" $"Vector store not initialized".

(** [x or default] for an optional string: [None] and the empty string
    give way to the default. *)
Definition or_else (x : option str) (fallback : str) : str :=
  match x with
  | Some (c :: s) => c :: s
  | _ => fallback
  end.

(** [VectorStoreManager.__init__(persist_directory, google_api_key)].
    [env] is the process environment; [make_store] stands for creating the
    embeddings and opening the Chroma database in a directory, which may
    raise. *)
Definition VectorStoreManager_init
    (env : gmap str str) (make_store : str -> str -> exn + Chroma)
    (persist_directory_arg google_api_key_arg : option str)
  : exn + VectorStoreManager :=
  let directory :=
    or_else persist_directory_arg (default $"chroma_db_gemini" (env !! $"CHROMA_DB_PATH")) in
  let key := or_else google_api_key_arg (default [] (env !! $"GOOGLE_API_KEY")) in
  if is_empty key then
    inl (Exception $"ValueError" $"GOOGLE_API_KEY not found in environment variables")
  else
    match make_store directory key with
    | inl e => inl e
    | inr store => inr (mkVectorStoreManager directory key (Some store))
    end.

(** [get_retriever(k, score_threshold)] *)
Definition get_retriever (self : VectorStoreManager) (k : nat) (score_threshold : Q)
  : exn + Retriever :=
  match vector_store self with
  | None => inl NOT_INITIALIZED
  | Some store => inr (mkRetriever store $"similarity_score_threshold" k score_threshold)
  end.

(** [similarity_search(query, k)]; [store_search] stands for the search of
    the Chroma store. *)
Definition similarity_search
    (store_search : Chroma -> str -> nat -> exn + list Document)
    (self : VectorStoreManager) (query : str) (k : nat) : exn + list Document :=
  match vector_store self with
  | None => inl NOT_INITIALIZED
  | Some store =>
      match store_search store query k with
      | inl e => inl e
      | inr documents => inr documents
      end
  end.

(** [get_vector_store_manager()], on the global [_vector_store_manager]. *)
Definition get_vector_store_manager
    (env : gmap str str) (make_store : str -> str -> exn + Chroma)
    (global : option VectorStoreManager)
  : option VectorStoreManager * (exn + VectorStoreManager) :=
  match global with
  | Some manager => (Some manager, inr manager)
  | None =>
      match VectorStoreManager_init env make_store None None with
      | inl e => (None, inl e)
      | inr manager => (Some manager, inr manager)
      end
  end.
End Store.

End VectorStore.

(** ** app/rag.py: construction of the RAG system *)

Module RagSystem.
Import Text Eff Rag VectorStore.

Section System.
Context `{U : Tables}.
Variable Chroma : Type.
(** The LLM client object. *)
Variable Llm : Type.

(** The attributes [LegalRAGSystem.__init__] sets. *)
Record LegalRAGSystem : Type := mkLegalRAGSystem {
  vector_store_manager : VectorStoreManager Chroma;
  llm_model : str;
  temperature : Q;
  llm : Llm
}.

(** [LegalRAGSystem.__init__(vector_store_manager, llm_model, temperature)];
    [make_llm] stands for the constructor of the LLM client (model,
    temperature, key), which may raise. *)
Definition LegalRAGSystem_init
    (env : gmap str str) (make_llm : str -> Q -> str -> exn + Llm)
    (manager : VectorStoreManager Chroma) (llm_model_arg : str) (temperature_arg : Q)
  : exn + LegalRAGSystem :=
  let key := default [] (env !! $"GOOGLE_API_KEY") in
  if is_empty key then
    inl (Exception $"ValueError" $"GOOGLE_API_KEY not found in environment variables")
  else
    match make_llm llm_model_arg temperature_arg key with
    | inl e => inl e
    | inr client => inr (mkLegalRAGSystem manager llm_model_arg temperature_arg client)
    end.

(** [get_rag_system(vector_store_manager)], on the global [_rag_system]. *)
Definition get_rag_system
    (env : gmap str str) (make_llm : str -> Q -> str -> exn + Llm)
    (manager : VectorStoreManager Chroma) (global : option LegalRAGSystem)
  : option LegalRAGSystem * (exn + LegalRAGSystem) :=
  match global with
  | Some system => (Some system, inr system)
  | None =>
      match LegalRAGSystem_init env make_llm manager $"models/gemini-2.5-flash" (3 # 10) with
      | inl e => (None, inl e)
      | inr system => (Some system, inr system)
      end
  end.

(** [self.process_query(query)] for a given system: the retriever comes from
    the manager of the system, and [retriever_invoke] is the search of a
    retriever. *)
Definition system_process_query
    (retriever_invoke : trace -> Retriever Chroma -> str -> exn + list Document)
    (llm_oracle : trace -> str -> exn + str)
    (prompt_template_format : str -> str -> str)
    (self : LegalRAGSystem) (query : str) : M AnswerResult :=
  process_query_via (Retriever Chroma)
                    (get_retriever Chroma (vector_store_manager self))
                    retriever_invoke llm_oracle prompt_template_format query.
End System.

End RagSystem.

(** ** app/main.py: request validation and the [/chat] endpoint *)

Module Main.
Import Text Eff Rag VectorStore RagSystem Whitespace.

(** [ChatRequest.validate_query(v)] *)
Definition validate_query `{U : Tables} (v : str) : exn + str :=
  let v := strip v in
  if is_empty v then
    inl (Exception $"ValueError" $"Query cannot be empty or just whitespace")
  else inr v.

(** [class Citation(BaseModel)] *)
Record Citation : Type := mkCitation {
  source_title : str;
  source : str;
  snippet : str;
  section : option str;
  page : option str
}.

(** [class ChatResponse(BaseModel)] *)
Record ChatResponse : Type := mkChatResponse {
  answer : str;
  citations : list Citation;
  has_context : bool
}.

(** [HTTPException(status_code, detail)] *)
Record HTTPException : Type := mkHTTPException {
  status_code : nat;
  detail : str
}.

Definition NOT_READY : HTTPException :=
  mkHTTPException 503 $"Service is not ready. Please try again in a moment.".

Definition PROCESSING_ERROR : HTTPException :=
  mkHTTPException 500 $"An error occurred while processing your query. Please try again.".

(** The list comprehension that builds a [Citation] model from every
    citation dictionary: the first dictionary the model rejects ends the
    conversion. *)
Fixpoint convert_citations (validate : Rag.Citation -> exn + Citation)
    (cits : list Rag.Citation) : exn + list Citation :=
  match cits with
  | [] => inr []
  | c :: rest =>
      match validate c with
      | inl e => inl e
      | inr c' =>
          match convert_citations validate rest with
          | inl e => inl e
          | inr rest' => inr (c' :: rest')
          end
      end
  end.

Section Chat.
Context `{U : Tables}.
Variable Chroma Llm : Type.
Variable retriever_invoke : trace -> Retriever Chroma -> str -> exn + list Document.
Variable llm_oracle : trace -> str -> exn + str.
Variable prompt_template_format : str -> str -> str.
(** The constructor of the [Citation] model applied to one citation
    dictionary: the model, or the validation error. *)
Variable validate_citation : Rag.Citation -> exn + Citation.

(** [chat(request)], for the global [rag_system] and the query of the
    request. *)
Definition chat (rag_system : option (LegalRAGSystem Chroma Llm)) (query : str)
  : trace -> trace * (HTTPException + ChatResponse) :=
  fun t =>
    match rag_system with
    | None => (t, inl NOT_READY)
    | Some system =>
        match system_process_query Chroma Llm retriever_invoke llm_oracle
                prompt_template_format system query t with
        | (t', inl e) => (t', inl PROCESSING_ERROR)
        | (t', inr result) =>
            match convert_citations validate_citation (Rag.citations result) with
            | inl e => (t', inl PROCESSING_ERROR)
            | inr cits =>
                (t', inr (mkChatResponse (Rag.answer result) cits (Rag.has_context result)))
            end
        end
    end.
End Chat.

End Main.

(** ** app/main.py: start-up *)

Module Startup.
Import Text Eff Rag VectorStore RagSystem.

Section Globals.
Variable Chroma Llm : Type.

(** The module-level variables start-up writes: the two globals of
    [main.py] and the globals behind the two accessors. *)
Record Globals : Type := mkGlobals {
  vector_store_manager : option (VectorStoreManager Chroma);
  rag_system : option (LegalRAGSystem Chroma Llm);
  _vector_store_manager : option (VectorStoreManager Chroma);
  _rag_system : option (LegalRAGSystem Chroma Llm)
}.

(** The start-up part of [lifespan(app)]. *)
Definition startup
    (env : gmap str str)
    (make_store : str -> str -> exn + Chroma)
    (make_llm : str -> Q -> str -> exn + Llm)
    (g : Globals) : Globals * (exn + unit) :=
  (* Validate environment variables *)
  if is_empty (default [] (env !! $"GOOGLE_API_KEY")) then
    (g, inl (Exception $"ValueError" $"GOOGLE_API_KEY environment variable is required"))
  else
    (* Initialize vector store *)
    match get_vector_store_manager Chroma env make_store (_vector_store_manager g) with
    | (vs_global, inl e) =>
        (mkGlobals (vector_store_manager g) (rag_system g) vs_global (_rag_system g), inl e)
    | (vs_global, inr manager) =>
        (* Initialize RAG system *)
        match get_rag_system Chroma Llm env make_llm manager (_rag_system g) with
        | (rag_global, inl e) =>
            (mkGlobals (Some manager) (rag_system g) vs_global rag_global, inl e)
        | (rag_global, inr system) =>
            (mkGlobals (Some manager) (Some system) vs_global rag_global, inr tt)
        end
    end.

(** The globals of a fresh process. *)
Definition fresh : Globals := mkGlobals None None None None.
End Globals.

End Startup.

(** ** llm_fallback_gemini.py *)

Module Gemini.
Import Text Eff Whitespace.
Import Rag (is_empty).

(** What [generate] reads of the HTTP response: the status, the body text,
    and the outcome of
    [r.json()["candidates"][0]["content"]["parts"][0]["text"]]. *)
Record Response : Type := mkResponse {
  status_code : nat;
  text : str;
  candidate_text : exn + str
}.

(** The request [generate] posts. *)
Record Request : Type := mkRequest {
  url : str;
  key : str;
  prompt : str;
  temperature : Q;
  maxOutputTokens : nat;
  timeout : nat
}.

Section Generate.
Context `{U : Tables}.
Variable GEMINI_API_KEY : str.
Variable GEMINI_MODEL : str.
(** [requests.post]: the response, or the exception raised. *)
Variable post : Request -> exn + Response.

(** [generate(system, user)] *)
Definition generate (system user : str) : exn + str :=
  if is_empty GEMINI_API_KEY then
    inl (Exception $"RuntimeError" $"Missing GEMINI_API_KEY in .env")
  else
    let request :=
      {| url := $"https://generativelanguage.googleapis.com/v1beta/" ++ GEMINI_MODEL
                ++ $":generateContent";
         key := GEMINI_API_KEY;
         prompt := system ++ NL ++ NL ++ $"User: " ++ user;
         temperature := 4 # 10;
         maxOutputTokens := 450;
         timeout := 60 |} in
    match post request with
    | inl e => inl e
    | inr r =>
        if negb (status_code r =? 200) then
          inl (Exception $"RuntimeError"
                 ($"Gemini API error " ++ ascii_str (pretty (status_code r))
                  ++ $": " ++ text r))
        else
          match candidate_text r with
          | inl e => inl e
          | inr generated => inr (strip generated)
          end
    end.
End Generate.

End Gemini.

(** ** app.py: the [/chat] endpoint of the legacy application *)

Module LegacyApp.
Import Text Safety Eff Legacy Whitespace.
Import Rag (is_empty).

(** What the endpoint can observe of a JSON value: [null], a string, or a
    value of another Python type (bool, int, float, list, dict) with the
    name of that type and its truth value. *)
Inductive json : Type :=
| JNull
| JString (s : str)
| JOther (python_type : str) (truthy : bool).

(** A parsed body: an object with its fields, or a value of another Python
    type. *)
Inductive payload : Type :=
| PObject (fields : gmap str json)
| POther (python_type : str).

(** What the endpoint returns: a JSON error response or a [ChatRes]. *)
Inductive response : Type :=
| JSONResponse (status_code : nat) (error : str)
| Chat (res : ChatRes).

(** [not v], where a missing key reads as [None]. *)
Definition falsy (v : option json) : bool :=
  match v with
  | None | Some JNull => true
  | Some (JString s) => is_empty s
  | Some (JOther _ truthy) => negb truthy
  end.

(** [s.endswith(suffix)] *)
Definition endswith (suffix s : str) : bool := startswith (reverse suffix) (reverse s).

Definition INVALID_JSON : response :=
  JSONResponse 400 $"Invalid JSON. Send {'message': '...'}.".

Definition EMPTY_MESSAGE : response :=
  JSONResponse 400 $"Empty message. Send JSON {'message': '...'} or plain text body.".

(** [x.attribute] on a value of a type that has no such attribute. *)
Definition no_attribute (python_type attribute : str) : exn :=
  Exception $"AttributeError"
    ($"'" ++ python_type ++ $"' object has no attribute '" ++ attribute ++ $"'").

(** The user id as [handle_message] receives it; the handler does not use
    it. *)
Definition user_id_of (v : option json) : option str :=
  match v with
  | Some (JString s) => Some s
  | _ => None
  end.

Section Endpoint.
Context `{U : Tables}.
Variable FALLBACK_PROVIDER : str.
Variable generate_oracle : trace -> str -> str -> exn + str.
(** The JSON parser ([request.json()], [json.loads]): the parsed body, or
    [None] when it raises. *)
Variable parse_json : str -> option payload.

(** The end of [chat]: the emptiness check and the call of the handler.
    A message that is neither empty nor a string makes [classify] raise at
    [(text or "").lower()]. *)
Definition dispatch (user_id message : option json) : M response :=
  if falsy message then ret EMPTY_MESSAGE
  else
    match message with
    | Some (JString s) =>
        do res <- handle_message FALLBACK_PROVIDER generate_oracle (user_id_of user_id) s;
        ret (Chat res)
    | Some (JOther python_type _) => raise (no_attribute python_type $"lower")
    | _ => ret EMPTY_MESSAGE
    end.

(** [chat(request)], for the content type header of the request (if any)
    and its decoded body. *)
Definition chat (content_type_header : option str) (body : str) : M response :=
  let content_type := lower (default [] content_type_header) in
  if contains $"application/json" content_type then
    (* A) JSON input *)
    match parse_json body with
    | None => ret INVALID_JSON
    | Some (POther python_type) => raise (no_attribute python_type $"get")
    | Some (PObject fields) => dispatch (fields !! $"user_id") (fields !! $"message")
    end
  else
    (* B) Plain text input (or anything else) *)
    let raw := strip body in
    if startswith $"{" raw && endswith $"}" raw then
      match parse_json raw with
      | Some (PObject fields) => dispatch (fields !! $"user_id") (fields !! $"message")
      | _ => dispatch None (Some (JString raw))
      end
    else dispatch None (Some (JString raw)).

(** Running the handler on a message and wrapping its result. *)
Definition handled (message : str) : M response :=
  fun t =>
    match handle_message FALLBACK_PROVIDER generate_oracle None message t with
    | (t', inl e) => (t', inl e)
    | (t', inr res) => (t', inr (Chat res))
    end.
End Endpoint.

End LegacyApp.

(** * Properties *)

(** ** Facts about the text operations *)

Module TextFacts.
Import Text.

Lemma startswith_prefix (p s : str) :
  startswith p s = true <-> exists rest, s = p ++ rest.
Proof.
  revert s. induction p as [|a p IH]; intros s; simpl.
  - split; [intros _; by exists s | done].
  - destruct s as [|b s].
    + split; [done | intros [rest H]; discriminate].
    + rewrite andb_true_iff, bool_decide_eq_true, IH. split.
      * intros [-> [rest ->]]. by exists rest.
      * intros [rest H]. injection H as -> ->. eauto.
Qed.

(** [contains] decides the substring relation. *)
Lemma contains_substring (sub s : str) :
  contains sub s = true <-> exists pre post, s = pre ++ sub ++ post.
Proof.
  induction s as [|c s IH]; simpl.
  - rewrite orb_false_r, startswith_prefix. split.
    + intros [rest H]. by exists [], rest.
    + intros [pre [post H]]. destruct pre; [by exists post | discriminate].
  - rewrite orb_true_iff, startswith_prefix, IH. split.
    + intros [[rest H] | [pre [post H]]].
      * by exists [], rest.
      * exists (c :: pre), post. by rewrite H.
    + intros [pre [post H]]. destruct pre as [|c' pre].
      * left. by exists post.
      * right. injection H as _ H. by exists pre, post.
Qed.

Lemma contains_app_r (sub a b : str) :
  contains sub b = true -> contains sub (a ++ b) = true.
Proof.
  rewrite !contains_substring. intros [pre [post ->]].
  exists (a ++ pre), post. by rewrite <- app_assoc.
Qed.

Lemma contains_app_l (sub a b : str) :
  contains sub a = true -> contains sub (a ++ b) = true.
Proof.
  rewrite !contains_substring. intros [pre [post ->]].
  exists pre, (post ++ b). by rewrite <- !app_assoc.
Qed.

Lemma startswith_length (p s : str) :
  startswith p s = true -> length p <= length s.
Proof.
  rewrite startswith_prefix. intros [rest ->]. rewrite length_app. lia.
Qed.

Lemma occurrences_short (sub s : str) :
  length s < length sub -> occurrences sub s = 0.
Proof.
  induction s as [|c s IH]; simpl; intros Hlen.
  - destruct sub; [simpl in Hlen; lia | done].
  - destruct (startswith sub (c :: s)) eqn:E.
    + apply startswith_length in E. simpl in E. lia.
    + simpl. apply IH. lia.
Qed.

Lemma occurrences_zero_contains (sub s : str) :
  occurrences sub s = 0 <-> contains sub s = false.
Proof.
  induction s as [|c s IH]; simpl.
  - destruct (startswith sub []); simpl; split; (done || lia).
  - destruct (startswith sub (c :: s)); simpl; [split; (done || lia) | done].
Qed.

(** A prefix test only looks at the first [length p] characters. *)
Lemma startswith_app_long (p a b : str) :
  length p <= length a -> startswith p (a ++ b) = startswith p a.
Proof.
  revert a. induction p as [|x p IH]; intros a Hlen; [done|].
  destruct a as [|y a]; simpl in *; [lia|].
  rewrite IH; [done | lia].
Qed.

Lemma unbordered_spec (sub : str) (m : nat) :
  unbordered sub = true -> 0 < m < length sub ->
  take (length sub - m) sub <> drop m sub.
Proof.
  unfold unbordered. rewrite forallb_forall. intros H Hm.
  specialize (H m). rewrite negb_true_iff, bool_decide_eq_false in H.
  apply H. apply list_elem_of_In, elem_of_seq. lia.
Qed.

(** An unbordered text does not start inside a shorter non-empty text
    that is followed by a copy of it. *)
Lemma startswith_straddle (sub a : str) :
  unbordered sub = true -> 0 < length a < length sub ->
  startswith sub (a ++ sub) = false.
Proof.
  intros Hu Ha. destruct (startswith sub (a ++ sub)) eqn:E; [|done].
  exfalso. apply startswith_prefix in E as [rest E].
  apply (unbordered_spec sub (length a) Hu Ha).
  assert (Hlen : length rest = length a).
  { apply (f_equal length) in E. rewrite !length_app in E. lia. }
  assert (Hs : sub = drop (length a) sub ++ rest).
  { rewrite <- (drop_app_length a sub) at 1.
    rewrite E. apply drop_app_le. lia. }
  transitivity (take (length sub - length a) (drop (length a) sub ++ rest)).
  - f_equal. exact Hs.
  - apply take_app_length'. rewrite length_drop. done.
Qed.

(** Appending an unbordered text adds exactly one occurrence of it. *)
Lemma occurrences_app_unbordered (sub a : str) :
  unbordered sub = true -> 0 < length sub ->
  occurrences sub (a ++ sub) = S (occurrences sub a).
Proof.
  intros Hu Hpos. induction a as [|c a IH].
  - simpl app. destruct sub as [|x sub]; [simpl in Hpos; lia|].
    assert (Hself : startswith (x :: sub) (x :: sub) = true).
    { apply startswith_prefix. exists []. by rewrite app_nil_r. }
    change (occurrences (x :: sub) (x :: sub))
      with ((if startswith (x :: sub) (x :: sub) then 1 else 0)
            + occurrences (x :: sub) sub).
    rewrite Hself.
    rewrite (occurrences_short (x :: sub) sub) by (simpl; lia).
    done.
  - change (occurrences sub ((c :: a) ++ sub))
      with ((if startswith sub ((c :: a) ++ sub) then 1 else 0)
            + occurrences sub (a ++ sub)).
    change (occurrences sub (c :: a))
      with ((if startswith sub (c :: a) then 1 else 0) + occurrences sub a).
    rewrite IH.
    destruct (decide (length sub <= length (c :: a))) as [Hle|Hgt].
    + rewrite startswith_app_long by done. lia.
    + rewrite (startswith_straddle sub (c :: a) Hu) by (simpl in *; lia).
      destruct (startswith sub (c :: a)) eqn:E; [|lia].
      apply startswith_length in E. lia.
Qed.

Lemma startswith_app_short (p a x : str) :
  startswith p (a ++ x) = true -> length a <= length p -> startswith a p = true.
Proof.
  rewrite !startswith_prefix. intros [rest E] Hlen.
  exists (drop (length a) p).
  rewrite <- (take_drop (length a) p) at 1. f_equal.
  rewrite <- (take_app_le p rest) by done.
  rewrite <- E. by rewrite take_app_length.
Qed.

Lemma occurrences_app_no_straddle (p a x : str) :
  0 < length p -> no_straddle p a = true ->
  occurrences p (a ++ x) = occurrences p a + occurrences p x.
Proof.
  intros Hp. induction a as [|c a IH]; intros Hns.
  - simpl app. destruct p; [simpl in Hp; lia | done].
  - cbn [no_straddle] in Hns. apply andb_true_iff in Hns as [Hc Hns].
    change (occurrences p ((c :: a) ++ x))
      with ((if startswith p ((c :: a) ++ x) then 1 else 0) + occurrences p (a ++ x)).
    change (occurrences p (c :: a))
      with ((if startswith p (c :: a) then 1 else 0) + occurrences p a).
    rewrite IH by done.
    apply orb_true_iff in Hc as [Hlen | Hpre].
    + apply Nat.leb_le in Hlen. rewrite startswith_app_long by done. lia.
    + apply negb_true_iff in Hpre.
      destruct (decide (length p <= length (c :: a))) as [Hle | Hgt].
      * rewrite startswith_app_long by done. lia.
      * destruct (startswith p ((c :: a) ++ x)) eqn:E1.
        { apply startswith_app_short in E1; [congruence | lia]. }
        destruct (startswith p (c :: a)) eqn:E2; [|lia].
        apply startswith_length in E2. lia.
Qed.

(** *** What the laws of [Tables] give *)

Lemma is_ascii_lookup (s : str) (i : nat) (c : char) :
  is_ascii s = true -> s !! i = Some c -> ascii_char c = true.
Proof.
  unfold is_ascii. rewrite forallb_forall. intros Hs Hc.
  apply Hs, list_elem_of_In. by eapply list_elem_of_lookup_2.
Qed.

Lemma ascii_lower_ascii (c : char) : ascii_char c = true -> ascii_char (ascii_lower c) = true.
Proof.
  unfold ascii_char, ascii_lower. intros Hc%N.ltb_lt.
  destruct ((65 <=? c)%N && (c <=? 90)%N) eqn:E; apply N.ltb_lt; [|done].
  apply andb_true_iff in E as [_ E%N.leb_le]. lia.
Qed.

Lemma is_ascii_lower (s : str) : is_ascii s = true -> is_ascii (ascii_lower <$> s) = true.
Proof.
  induction s as [|c s IH]; [done|]. simpl.
  rewrite !andb_true_iff. intros [Hc Hs]. split; [by apply ascii_lower_ascii | by apply IH].
Qed.

Section Lower.
Context `{U : Tables}.

Lemma lower_nil : lower [] = [].
Proof. by rewrite lower_ascii. Qed.

(** ASCII text in front of a text is found in its lower-case form. *)
Lemma lower_prefix (keyword a b : str) :
  is_ascii keyword = true -> is_ascii a = true ->
  contains keyword (ascii_lower <$> a) = true ->
  contains keyword (lower (a ++ b)) = true.
Proof.
  intros Hk Ha Hc. apply (lower_embed keyword [] a b Hk). by rewrite lower_ascii.
Qed.
End Lower.

End TextFacts.

(** ** The executable matcher agrees with the declarative semantics *)

Module RegexFacts.
Import Text Regex TextFacts.

Lemma star_ends_ext (step1 step2 : nat -> list nat) :
  (forall i, step1 i = step2 i) ->
  forall fuel i, star_ends step1 fuel i = star_ends step2 fuel i.
Proof.
  intros Hstep. induction fuel as [|fuel IH]; intros i; simpl; [done|].
  f_equal. rewrite Hstep. apply list_bind_ext; [exact IH | done].
Qed.

Section Matching.
Context `{U : Tables}.

Lemma matches_range (s : str) (r : regex) (i j : nat) :
  matches s r i j -> i <= j /\ (i < j -> j <= length s).
Proof.
  induction 1 as [ | c i Hc | c i Hc _ | | | | | | ]; try lia.
  - apply lookup_lt_Some in Hc. lia.
  - apply lookup_lt_Some in Hc. lia.
Qed.

Section Star.
Variables (s : str) (r : regex).

Lemma star_ends_sound (fuel : nat) :
  (forall i j, j ∈ ends r s i -> matches s r i j) ->
  forall i j, j ∈ star_ends (ends r s) fuel i -> matches s (Star r) i j.
Proof.
  intros Hr. induction fuel as [|fuel IH]; intros i j; simpl.
  - intros ->%list_elem_of_singleton. constructor.
  - rewrite elem_of_cons, list_elem_of_bind.
    intros [-> | [k [Hj [_ Hk]%list_elem_of_filter]]].
    + constructor.
    + eapply m_star_step; eauto.
Qed.

Lemma star_ends_complete :
  (forall i j, matches s r i j -> j ∈ ends r s i) ->
  forall i k, matches s (Star r) i k ->
  forall fuel, length s <= fuel + i -> k ∈ star_ends (ends r s) fuel i.
Proof.
  intros Hr i k H. remember (Star r) as r0 eqn:Er0.
  induction H as [ | | | | | | | r' i | r' i j k H1 _ H2 IH2 ];
    try discriminate; injection Er0 as ->; intros fuel Hfuel.
  - destruct fuel; simpl; left.
  - destruct (matches_range _ _ _ _ H1) as [Hij Hj].
    destruct (decide (i = j)) as [->|Hne].
    + by apply IH2.
    + assert (i < j) as Hlt by lia.
      destruct fuel as [|fuel]; [specialize (Hj Hlt); lia|].
      simpl. right. apply list_elem_of_bind. exists j. split.
      * apply IH2; [done | lia].
      * apply list_elem_of_filter. split; [done | by apply Hr].
Qed.
End Star.

(** [ends] lists exactly the end positions of the matches from [i]. *)
Lemma ends_matches (s : str) (r : regex) :
  forall i j, j ∈ ends r s i <-> matches s r i j.
Proof.
  induction r as [ | c | | | r1 IH1 r2 IH2 | r1 IH1 r2 IH2 | r IH ];
    intros i j; simpl.
  - rewrite list_elem_of_singleton. split; [intros ->; constructor | by inversion 1].
  - split.
    + destruct (s !! i) as [c'|] eqn:E; [|by intros ?%elem_of_nil].
      case_bool_decide as Hc; [|by intros ?%elem_of_nil].
      intros ->%list_elem_of_singleton. subst. by constructor.
    + inversion 1 as [ | c' i' Hc | | | | | | | ]; subst.
      rewrite Hc. rewrite bool_decide_eq_true_2 by done. by left.
  - split.
    + destruct (s !! i) as [c'|] eqn:E; [|by intros ?%elem_of_nil].
      destruct (is_newline c') eqn:En; [by intros ?%elem_of_nil|].
      intros ->%list_elem_of_singleton. by econstructor.
    + inversion 1 as [ | | c' i' Hc Hn | | | | | | ]; subst.
      rewrite Hc, Hn. by left.
  - split.
    + destruct (boundary s i) eqn:E; [|by intros ?%elem_of_nil].
      intros ->%list_elem_of_singleton. by constructor.
    + inversion 1 as [ | | | i' Hb | | | | | ]; subst. rewrite Hb. by left.
  - rewrite list_elem_of_bind. split.
    + intros [k [Hj Hk]]. apply (m_seq _ _ _ _ k); [by apply IH1 | by apply IH2].
    + inversion 1 as [ | | | | ? ? ? k ? H1 H2 | | | | ]; subst.
      exists k. split; [by apply IH2 | by apply IH1].
  - rewrite elem_of_app, IH1, IH2. split.
    + intros [?|?]; [by apply m_alt_l | by apply m_alt_r].
    + inversion 1; subst; auto.
  - split.
    + apply star_ends_sound. intros ? ?. apply IH.
    + intros H. apply star_ends_complete; [intros ? ?; apply IH | done | lia].
Qed.

Lemma search_matches_in (p : regex) (t : str) :
  search p t = true <-> matches_in p t.
Proof.
  unfold search, matches_in, match_at. rewrite existsb_exists. split.
  - intros [i [Hi Hm]]. apply list_elem_of_In, elem_of_seq in Hi.
    destruct (ends p t i) as [|j l] eqn:E; [done|].
    exists i, j. split; [lia|]. apply ends_matches. rewrite E. by left.
  - intros [i [j [Hi Hm]]]. exists i. split.
    + apply list_elem_of_In, elem_of_seq. lia.
    + apply ends_matches in Hm. destruct (ends p t i); [by apply elem_of_nil in Hm | done].
Qed.

(** On ASCII text the matcher does not depend on the tables. *)
Lemma boundary_ascii (s : str) (i : nat) :
  is_ascii s = true -> boundary s i = boundary (U := ascii_tables) s i.
Proof.
  intros Hs.
  assert (Hw : forall k, word_at s k = word_at (U := ascii_tables) s k).
  { intros k. unfold word_at. destruct (s !! k) as [c|] eqn:E; [|done].
    apply is_word_ascii. by eapply is_ascii_lookup. }
  unfold boundary. rewrite Hw. by destruct i; [|rewrite Hw].
Qed.

Lemma ends_ascii (s : str) (r : regex) :
  is_ascii s = true -> forall i, ends r s i = ends (U := ascii_tables) r s i.
Proof.
  intros Hs. induction r as [ | c | | | r1 IH1 r2 IH2 | r1 IH1 r2 IH2 | r IH ];
    intros i; simpl; try done.
  - by rewrite boundary_ascii.
  - rewrite IH1. by apply list_bind_ext.
  - by rewrite IH1, IH2.
  - by apply star_ends_ext.
Qed.

Lemma search_ascii (p : regex) (t : str) :
  is_ascii t = true -> search p t = search (U := ascii_tables) p t.
Proof.
  intros Ht.
  assert (H : forall i, match_at p t i = match_at (U := ascii_tables) p t i).
  { intros i. unfold match_at. by rewrite ends_ascii. }
  unfold search. induction (seq 0 (S (length t))) as [|i l IH]; simpl; [done|].
  by rewrite H, IH.
Qed.
End Matching.

End RegexFacts.

(** ** safety.py: the classifier *)

Module SafetyFacts.
Import Text Regex Safety TextFacts RegexFacts.

Section Classifier.
Context `{U : Tables}.

Lemma any_search_matches (patterns : list regex) (t : str) :
  any_search patterns t = true <-> exists p, p ∈ patterns /\ matches_in p t.
Proof.
  unfold any_search. rewrite existsb_exists. split.
  - intros [p [Hp Hs]]. exists p. split; [by apply list_elem_of_In | by apply search_matches_in].
  - intros [p [Hp Hs]]. exists p. split; [by apply list_elem_of_In | by apply search_matches_in].
Qed.

Lemma classify_cases (text : option str) :
  classify text = $"emergency" \/ classify text = $"illegal" \/ classify text = $"ok".
Proof.
  unfold classify.
  destruct (any_search EMERGENCY _); [by left|].
  destruct (any_search ILLEGAL _); [right; by left | right; by right].
Qed.

Lemma classify_blocked (text : option str) :
  bool_decide (classify text ∈ [$"illegal"; $"emergency"]) = true
  <-> classify text = $"emergency" \/ classify text = $"illegal".
Proof.
  destruct (classify_cases text) as [E | [E | E]]; rewrite E; split;
    intros H; try done; try (by left); try (by right).
  destruct H as [H | H]; discriminate.
Qed.

(** On ASCII text the classifier does not depend on the tables. *)
Lemma any_search_ascii (patterns : list regex) (t : str) :
  is_ascii t = true -> any_search patterns t = any_search (U := ascii_tables) patterns t.
Proof.
  intros Ht. unfold any_search.
  induction patterns as [|p l IH]; simpl; [done|]. by rewrite search_ascii, IH.
Qed.

Lemma classify_ascii (s : str) :
  is_ascii s = true -> classify (Some s) = classify (U := ascii_tables) (Some s).
Proof.
  intros Hs. unfold classify. simpl default. rewrite (lower_ascii s Hs).
  change (lower (Tables := ascii_tables) s) with (ascii_lower <$> s).
  by rewrite !any_search_ascii by (by apply is_ascii_lower).
Qed.

End Classifier.

End SafetyFacts.

Section SafetyClaims.
Import Text Regex Safety TextFacts RegexFacts SafetyFacts.
Context `{U : Tables}.

(** C6. The classifier is a function of its input text alone and checks
    the two tiers in order: if an emergency pattern matches the
    lower-cased text the label is [emergency], whatever the illegal
    patterns do; otherwise, if an illegal pattern matches, the label is
    [illegal]; otherwise it is [ok].  No pattern matches the empty text,
    so both the empty text and [None] are classified [ok]. *)
Theorem classify_tiered_priority (text : option str) :
  let t := lower (default [] text) in
  let emergency_match := exists p, p ∈ EMERGENCY /\ matches_in p t in
  let illegal_match := exists p, p ∈ ILLEGAL /\ matches_in p t in
  (emergency_match -> classify text = $"emergency") /\
  (~ emergency_match -> illegal_match -> classify text = $"illegal") /\
  (~ emergency_match -> ~ illegal_match -> classify text = $"ok") /\
  (forall p, p ∈ EMERGENCY ++ ILLEGAL -> ~ matches_in p []) /\
  classify None = $"ok" /\ classify (Some []) = $"ok".
Proof.
  intros t em il. subst em il. rewrite <- !any_search_matches.
  unfold classify. fold t.
  split_and!.
  - by intros ->.
  - intros He Hi. apply not_true_is_false in He. by rewrite He, Hi.
  - intros He Hi. apply not_true_is_false in He, Hi. by rewrite He, Hi.
  - intros p Hp Hm.
    assert (H : any_search (EMERGENCY ++ ILLEGAL) [] = true)
      by (apply any_search_matches; eauto).
    rewrite any_search_ascii in H by done. vm_compute in H. discriminate.
  - simpl default. rewrite lower_nil, !any_search_ascii by done. reflexivity.
  - simpl default. rewrite lower_nil, !any_search_ascii by done. reflexivity.
Qed.

End SafetyClaims.

Section SafetyExamples.
Import Text Regex Safety RegexFacts.
(* The examples are ASCII text, run with the ASCII tables. *)
Local Existing Instance Text.ascii_tables.

Lemma classify_tiered_priority_witness :
  classify (Some $"How do I report an Assault after a bribe?") = $"emergency".
Proof.
  apply (proj1 (classify_tiered_priority
                  (Some $"How do I report an Assault after a bribe?"))).
  exists (word $"assault"). split.
  - apply list_elem_of_In. simpl. tauto.
  - apply search_matches_in. vm_compute. reflexivity.
Defined.

End SafetyExamples.

(** ** app.py: the legacy handler *)

Module LegacyFacts.
Import Text Safety Eff Legacy TextFacts SafetyFacts.

Section Handler.
Context `{U : Tables}.
Variable FALLBACK_PROVIDER : str.
Variable generate_oracle : trace -> str -> str -> exn + str.

Let handle := handle_message FALLBACK_PROVIDER generate_oracle.

(** The safety branch: the canned response, and the trace is left as it
    was. *)
Lemma handle_message_blocked (user_id : option str) (message : str) (t : trace) :
  classify (Some message) = $"emergency" \/ classify (Some message) = $"illegal" ->
  handle user_id message t
  = (t, inr (mkChatRes (canned_response (classify (Some message)))
                       (classify (Some message)) $"rules")).
Proof.
  intros H. apply classify_blocked in H.
  unfold handle, handle_message. cbv zeta. by rewrite H.
Qed.

Lemma handle_message_ok (user_id : option str) (message : str) (t : trace) :
  classify (Some message) = $"ok" ->
  handle user_id message t
  = (t ++ [EvGenerate SYSTEM_STYLE message],
     match generate_oracle t SYSTEM_STYLE message with
     | inl e => inl e
     | inr out => inr (mkChatRes (enforced out) $"ok" FALLBACK_PROVIDER)
     end).
Proof.
  intros H. unfold handle, handle_message. cbv zeta. rewrite H.
  change (bool_decide ($"ok" ∈ [$"illegal"; $"emergency"])) with false.
  cbv iota. unfold bind, fallback_generate, call, ret, enforced.
  by destruct (generate_oracle t SYSTEM_STYLE message).
Qed.

Lemma enforced_has_disclaimer (out : str) :
  contains $"not legal advice" (lower (enforced out)) = true.
Proof.
  unfold enforced.
  destruct (contains $"not legal advice" (lower out)) eqn:E; simpl negb; cbv iota.
  - done.
  - apply lower_prefix; vm_compute; reflexivity.
Qed.

(** The lower-case form of a reply with the disclaimer put in front. *)
Lemma lower_disclaimer_prefix (out : str) :
  lower (DISCLAIMER_PREFIX ++ out) = (ascii_lower <$> DISCLAIMER_PREFIX) ++ lower out.
Proof.
  change (DISCLAIMER_PREFIX ++ out) with (DISCLAIMER_SENTENCE ++ NL ++ ([] ++ NL ++ out)).
  rewrite !lower_lines, lower_nil, (lower_ascii DISCLAIMER_SENTENCE) by (vm_compute; reflexivity).
  change DISCLAIMER_PREFIX with (DISCLAIMER_SENTENCE ++ NL ++ NL).
  rewrite !fmap_app. by rewrite <- !app_assoc.
Qed.

(** Both canned responses carry the disclaimer sentence on a line of its
    own. *)
Lemma canned_has_disclaimer (label : str) :
  label = $"emergency" \/ label = $"illegal" ->
  contains $"not legal advice" (lower (canned_response label)) = true.
Proof.
  intros [-> | ->].
  - change (canned_response $"emergency") with CANNED_EMERGENCY.
    rewrite lower_ascii by (vm_compute; reflexivity). vm_compute. reflexivity.
  - change (canned_response $"illegal")
      with (($"I can" ++ [8217%N] ++ $"t help with anything illegal or harmful." ++ NL)
            ++ DISCLAIMER_SENTENCE
            ++ (NL ++ $"If you explain what happened, I can suggest lawful options (reporting channels, evidence preservation, and next steps).")).
    apply lower_embed; [vm_compute; reflexivity|].
    rewrite lower_ascii by (vm_compute; reflexivity). vm_compute. reflexivity.
Qed.
End Handler.

End LegacyFacts.

Section LegacyClaims.
Import Text Safety Eff Legacy TextFacts SafetyFacts LegacyFacts.
Context `{U : Tables}.

(** C9. Whatever the message, and whatever text the generation call
    returns, the reply of the legacy handler contains "not legal advice"
    when compared case-insensitively: both canned responses contain it,
    and on the [ok] path the disclaimer sentence is put in front of the
    generated reply exactly when that reply lacks the phrase. *)
Theorem handle_message_reply_has_disclaimer
    (provider : str) (generate_oracle : trace -> str -> str -> exn + str)
    (user_id : option str) (message : str) (t : trace) (out : str) :
  generate_oracle t SYSTEM_STYLE message = inr out ->
  exists t' r,
    handle_message provider generate_oracle user_id message t = (t', inr r) /\
    contains $"not legal advice" (lower (reply r)) = true /\
    (classify (Some message) <> $"ok" ->
       t' = t /\ reply r = canned_response (classify (Some message))) /\
    (classify (Some message) = $"ok" ->
       reply r = if contains $"not legal advice" (lower out)
                 then out
                 else $"This is general information, not legal advice." ++ NL ++ NL ++ out) /\
    contains $"not legal advice" (lower (canned_response $"illegal")) = true /\
    contains $"not legal advice" (lower (canned_response $"emergency")) = true.
Proof.
  intros Hgen.
  assert (Hcanned := canned_has_disclaimer).
  destruct (classify_cases (Some message)) as [E | [E | E]].
  - exists t, (mkChatRes (canned_response (classify (Some message)))
                         (classify (Some message)) $"rules").
    rewrite handle_message_blocked by auto.
    split_and!; auto.
    + simpl reply. auto.
    + intros Hok. rewrite E in Hok. discriminate Hok.
  - exists t, (mkChatRes (canned_response (classify (Some message)))
                         (classify (Some message)) $"rules").
    rewrite handle_message_blocked by auto.
    split_and!; auto.
    + simpl reply. auto.
    + intros Hok. rewrite E in Hok. discriminate Hok.
  - exists (t ++ [EvGenerate SYSTEM_STYLE message]), (mkChatRes (enforced out) $"ok" provider).
    rewrite handle_message_ok, Hgen by done.
    split_and!; auto.
    + apply enforced_has_disclaimer.
    + intros Hne. by destruct Hne.
    + intros _. simpl reply. unfold enforced.
      by destruct (contains $"not legal advice" (lower out)).
Qed.

End LegacyClaims.

Section LegacyExamples.
Import Text Safety Eff Legacy.
(* The examples are ASCII text, run with the ASCII tables. *)
Local Existing Instance Text.ascii_tables.

Lemma handle_message_reply_has_disclaimer_witness :
  exists t' r,
    handle_message $"gemini" (fun _ _ _ => inr $"Ask a lawyer.") None
                   $"Can my landlord keep my deposit?" [] = (t', inr r) /\
    reply r = $"This is general information, not legal advice." ++ NL ++ NL ++ $"Ask a lawyer.".
Proof.
  destruct (handle_message_reply_has_disclaimer
              $"gemini" (fun _ _ _ => inr $"Ask a lawyer.") None
              $"Can my landlord keep my deposit?" [] $"Ask a lawyer." eq_refl)
    as [t' [r [Hrun [_ [_ [Hok _]]]]]].
  exists t', r. split; [exact Hrun|].
  apply Hok. vm_compute. reflexivity.
Defined.

End LegacyExamples.

(** ** app/rag.py: the control flow of [process_query] *)

Module RagFacts.
Import Text Eff Rag TextFacts.

Lemma is_illegal_query_substring `{U : Tables} (query : str) :
  _is_illegal_query query = true
  <-> exists keyword pre post,
        keyword ∈ ILLEGAL_KEYWORDS /\ lower query = pre ++ keyword ++ post.
Proof.
  unfold _is_illegal_query. cbv zeta. rewrite existsb_exists. split.
  - intros [kw [Hkw [pre [post H]]%contains_substring]].
    exists kw, pre, post. split; [by apply list_elem_of_In | done].
  - intros [kw [pre [post [Hkw H]]]]. exists kw.
    split; [by apply list_elem_of_In | apply contains_substring; eauto].
Qed.

(** On ASCII text the two checks of the pipeline do not depend on the
    tables. *)
Lemma is_illegal_query_ascii `{U : Tables} (query : str) :
  is_ascii query = true ->
  _is_illegal_query query = _is_illegal_query (U := ascii_tables) query.
Proof. intros Hq. unfold _is_illegal_query. by rewrite (lower_ascii query Hq). Qed.

Lemma insufficient_ascii `{U : Tables} (out : str) :
  is_ascii out = true -> insufficient out = insufficient (U := ascii_tables) out.
Proof. intros Ho. unfold insufficient. by rewrite (lower_ascii out Ho). Qed.

Lemma context_nonempty (documents : list Document) :
  documents <> [] -> is_empty (format_context documents) = false.
Proof.
  destruct documents as [|d ds]; [done|]. intros _.
  unfold format_context. cbn [imap].
  destruct (imap _ ds); reflexivity.
Qed.

Section Pipeline.
Context `{U : Tables}.
Variable search_oracle : trace -> nat -> Q -> str -> exn + list Document.
Variable llm_oracle : trace -> str -> exn + str.
Variable prompt_template_format : str -> str -> str.

Let retrieve := _retrieve_context search_oracle.
Let process := process_query search_oracle llm_oracle prompt_template_format.
Let grounded_prompt (query : str) (documents : list Document) : str :=
  prompt_template_format (format_context documents) query.

Lemma retrieve_context_run (query : str) (k : nat) (t : trace) :
  retrieve query k t
  = (t ++ [EvRetrieve k (3 # 10) query],
     match search_oracle t k (3 # 10) query with
     | inl e => inl e
     | inr [] => inr ([], [])
     | inr (d :: ds) => inr (format_context (d :: ds), d :: ds)
     end).
Proof.
  unfold retrieve, _retrieve_context, retrieve_context_via, try_except, bind, lift,
    settings_retriever, settings_invoke, call, raise, ret.
  simpl. destruct (search_oracle t k (3 # 10) query) as [e | [|d ds]]; reflexivity.
Qed.

(** [process_query] after its keyword check. *)
Lemma process_query_unfold (query : str) (t : trace) :
  _is_illegal_query query = false ->
  process query t
  = match retrieve query 10 t with
    | (t1, inl e) => (t1, inl e)
    | (t1, inr (context, documents)) =>
        if is_empty context || is_empty documents then
          (t1 ++ [EvLlmInvoke (fallback_prompt query)],
           finish false (llm_oracle t1 (fallback_prompt query)))
        else
          match llm_oracle t1 (prompt_template_format context query) with
          | inl e => (t1 ++ [EvLlmInvoke (prompt_template_format context query)], inl e)
          | inr out =>
              if insufficient out then
                ((t1 ++ [EvLlmInvoke (prompt_template_format context query)])
                   ++ [EvLlmInvoke (fallback_prompt query)],
                 finish true
                   (llm_oracle (t1 ++ [EvLlmInvoke (prompt_template_format context query)])
                               (fallback_prompt query)))
              else (t1 ++ [EvLlmInvoke (prompt_template_format context query)],
                    finish true (inr out))
          end
    end.
Proof.
  intros Hq. unfold process, process_query, process_query_via, try_except. rewrite Hq.
  unfold bind. fold (_retrieve_context search_oracle query 10). fold retrieve.
  destruct (retrieve query 10 t) as [t1 [e | [context documents]]]; [reflexivity|].
  destruct (is_empty context || is_empty documents).
  - unfold llm_invoke, call, ret, finish. by destruct (llm_oracle _ _).
  - unfold llm_invoke, call, ret, finish, insufficient, raise.
    destruct (llm_oracle _ _) as [e | out]; [reflexivity|].
    destruct (contains _ (lower out) || contains _ (lower out)); [|reflexivity].
    by destruct (llm_oracle _ _).
Qed.

Lemma process_query_illegal (query : str) (t : trace) :
  _is_illegal_query query = true ->
  process query t = (t, inr (mkAnswerResult (ILLEGAL_ANSWER ++ LEGAL_DISCLAIMER) [] false)).
Proof.
  intros H. unfold process, process_query, process_query_via, try_except. by rewrite H.
Qed.

Lemma process_query_retrieval_error (query : str) (t : trace) (e : exn) :
  _is_illegal_query query = false ->
  search_oracle t 10 (3 # 10) query = inl e ->
  process query t = (after_retrieval query t, inl e).
Proof.
  intros Hq Hs. rewrite process_query_unfold, retrieve_context_run, Hs by done.
  reflexivity.
Qed.

Lemma process_query_no_documents (query : str) (t : trace) :
  _is_illegal_query query = false ->
  search_oracle t 10 (3 # 10) query = inr [] ->
  process query t
  = (after_retrieval query t ++ [EvLlmInvoke (fallback_prompt query)],
     finish false (llm_oracle (after_retrieval query t) (fallback_prompt query))).
Proof.
  intros Hq Hs. rewrite process_query_unfold, retrieve_context_run, Hs by done.
  reflexivity.
Qed.

Lemma process_query_grounded (query : str) (t : trace) (documents : list Document) :
  _is_illegal_query query = false ->
  search_oracle t 10 (3 # 10) query = inr documents ->
  documents <> [] ->
  process query t
  = match llm_oracle (after_retrieval query t) (grounded_prompt query documents) with
    | inl e => (after_grounded (grounded_prompt query documents) query t, inl e)
    | inr out =>
        if insufficient out then
          (after_grounded (grounded_prompt query documents) query t
             ++ [EvLlmInvoke (fallback_prompt query)],
           finish true (llm_oracle (after_grounded (grounded_prompt query documents) query t)
                                   (fallback_prompt query)))
        else (after_grounded (grounded_prompt query documents) query t,
              finish true (inr out))
    end.
Proof.
  intros Hq Hs Hne. rewrite process_query_unfold, retrieve_context_run, Hs by done.
  destruct documents as [|d ds]; [done|].
  rewrite context_nonempty by done. cbn [is_empty orb]. reflexivity.
Qed.

(** The retry after an insufficient grounded answer: a second LLM call
    with the direct prompt, whose output is used; the result reports
    context but carries no citation. *)
Lemma process_query_insufficient_retry
    (query : str) (t : trace) (documents : list Document) (out out2 : str) :
  _is_illegal_query query = false ->
  search_oracle t 10 (3 # 10) query = inr documents ->
  documents <> [] ->
  llm_oracle (after_retrieval query t) (grounded_prompt query documents) = inr out ->
  insufficient out = true ->
  llm_oracle (after_grounded (grounded_prompt query documents) query t)
             (fallback_prompt query) = inr out2 ->
  process query t
  = (t ++ [EvRetrieve 10 (3 # 10) query;
           EvLlmInvoke (grounded_prompt query documents);
           EvLlmInvoke (fallback_prompt query)],
     inr (mkAnswerResult (out2 ++ LEGAL_DISCLAIMER) [] true)).
Proof.
  intros Hq Hs Hne Hout Hins Hout2.
  rewrite (process_query_grounded _ _ documents) by done.
  rewrite Hout, Hins, Hout2. unfold after_grounded, after_retrieval, finish.
  by rewrite <- !app_assoc.
Qed.

(** Whatever [process_query] returns for a query that passes its safety
    check is the output of the last call of the run, an LLM call, followed
    by the disclaimer, with no citations. *)
Lemma process_query_result (query : str) (t t' : trace) (r : AnswerResult) :
  _is_illegal_query query = false ->
  process query t = (t', inr r) ->
  exists calls prompt out,
    t' = t ++ calls ++ [EvLlmInvoke prompt] /\
    llm_oracle (t ++ calls) prompt = inr out /\
    answer r = out ++ LEGAL_DISCLAIMER /\ citations r = [].
Proof.
  intros Hq Hrun.
  destruct (search_oracle t 10 (3 # 10) query) as [e | documents] eqn:Hs.
  - rewrite (process_query_retrieval_error _ _ e) in Hrun by done. discriminate.
  - destruct (decide (documents = [])) as [-> | Hne].
    + rewrite process_query_no_documents in Hrun by done.
      destruct (llm_oracle _ _) as [e | out] eqn:Hl; simpl in Hrun; [discriminate|].
      injection Hrun as <- <-.
      exists [EvRetrieve 10 (3 # 10) query], (fallback_prompt query), out.
      unfold after_retrieval in *. rewrite <- app_assoc. by split_and!.
    + rewrite (process_query_grounded _ _ documents) in Hrun by done.
      destruct (llm_oracle _ _) as [e | out] eqn:Hl; [discriminate|].
      destruct (insufficient out).
      * destruct (llm_oracle (after_grounded _ _ _) _) as [e | out2] eqn:Hl2;
          simpl in Hrun; [discriminate|].
        injection Hrun as <- <-.
        exists [EvRetrieve 10 (3 # 10) query; EvLlmInvoke (grounded_prompt query documents)],
               (fallback_prompt query), out2.
        unfold after_grounded, after_retrieval in *.
        rewrite <- !app_assoc in *. by split_and!.
      * simpl in Hrun. injection Hrun as <- <-.
        exists [EvRetrieve 10 (3 # 10) query], (grounded_prompt query documents), out.
        unfold after_grounded, after_retrieval in *.
        rewrite <- !app_assoc in *. by split_and!.
Qed.
End Pipeline.

(** The pipeline over a manager: without a retriever it ends with the
    error of [get_retriever] and makes no call; with one, it is the pipeline
    over the search of that retriever. *)
Section Manager.
Context `{U : Tables}.
Variable Retriever : Type.
Variable get_retriever : nat -> Q -> exn + Retriever.
Variable invoke_oracle : trace -> Retriever -> str -> exn + list Document.
Variable llm_oracle : trace -> str -> exn + str.
Variable prompt_template_format : str -> str -> str.

Let process_via :=
  process_query_via Retriever get_retriever invoke_oracle llm_oracle prompt_template_format.

Lemma process_query_via_illegal (query : str) (t : trace) :
  _is_illegal_query query = true ->
  process_via query t = (t, inr (mkAnswerResult (ILLEGAL_ANSWER ++ LEGAL_DISCLAIMER) [] false)).
Proof.
  intros H. unfold process_via, process_query_via, try_except. by rewrite H.
Qed.

Lemma process_query_via_no_retriever (query : str) (t : trace) (e : exn) :
  _is_illegal_query query = false ->
  get_retriever 10 (3 # 10) = inl e ->
  process_via query t = (t, inl e).
Proof.
  intros Hq Hg.
  unfold process_via, process_query_via, retrieve_context_via, try_except, bind, lift.
  by rewrite Hq, Hg.
Qed.

Lemma process_query_via_retriever (query : str) (t : trace) (retriever : Retriever) :
  get_retriever 10 (3 # 10) = inr retriever ->
  process_via query t
  = process_query (fun t _ _ q => invoke_oracle t retriever q)
                  llm_oracle prompt_template_format query t.
Proof.
  intros Hg.
  unfold process_via, process_query, process_query_via, retrieve_context_via,
    try_except, bind, lift, settings_retriever, settings_invoke.
  by rewrite Hg.
Qed.
End Manager.

End RagFacts.

Section RagClaims.
Import Text Eff Rag TextFacts RagFacts.
Context `{U : Tables}.

Variable search_oracle : trace -> nat -> Q -> str -> exn + list Document.
Variable llm_oracle : trace -> str -> exn + str.
Variable prompt_template_format : str -> str -> str.

Abbreviation process := (process_query search_oracle llm_oracle prompt_template_format).

(** C10. The illegal-query check of the RAG pipeline is substring
    matching on the lower-cased query: the check fires exactly when some
    configured keyword occurs somewhere in the lower-cased query, inside a
    longer word or not, and then [process_query] returns the fixed decline
    answer with no context and no citations, and calls neither the
    retriever nor the LLM (the trace of calls is unchanged). *)
Theorem illegal_keyword_substring_declines (query : str) (t : trace) :
  (_is_illegal_query query = true
   <-> exists keyword pre post,
         keyword ∈ ILLEGAL_KEYWORDS /\ lower query = pre ++ keyword ++ post) /\
  (forall keyword pre post,
     keyword ∈ ILLEGAL_KEYWORDS -> lower query = pre ++ keyword ++ post ->
     process query t
     = (t, inr {| answer :=
                    $"I cannot provide guidance on illegal activities. If you have questions about legal compliance or your rights, I'm happy to help with that instead."
                    ++ LEGAL_DISCLAIMER;
                  citations := [];
                  has_context := false |})).
Proof.
  split; [apply is_illegal_query_substring|].
  intros keyword pre post Hkw Hsub.
  apply process_query_illegal, is_illegal_query_substring. eauto.
Qed.

(** C5. When a query passes the safety check and retrieval returns no
    passage, the pipeline makes one LLM call, with the direct
    (non-grounded) prompt, and the result built from its output has
    [has_context = false] and no citations; this does not depend on the
    text of the query. *)
Theorem no_passages_no_context (query : str) (t : trace) :
  _is_illegal_query query = false ->
  search_oracle t 10 (3 # 10) query = inr [] ->
  process query t
  = (t ++ [EvRetrieve 10 (3 # 10) query] ++ [EvLlmInvoke (fallback_prompt query)],
     match llm_oracle (t ++ [EvRetrieve 10 (3 # 10) query]) (fallback_prompt query) with
     | inl e => inl e
     | inr out =>
         inr {| answer := out ++ LEGAL_DISCLAIMER; citations := []; has_context := false |}
     end) /\
  (forall t' r, process query t = (t', inr r) ->
                has_context r = false /\ citations r = []).
Proof.
  intros Hq Hs.
  assert (Hrun := process_query_no_documents search_oracle llm_oracle
                    prompt_template_format query t Hq Hs).
  unfold after_retrieval, finish in Hrun. rewrite <- app_assoc in Hrun.
  split; [exact Hrun|].
  intros t' r Hr. rewrite Hrun in Hr.
  destruct (llm_oracle _ _); [discriminate|].
  by injection Hr as _ <-.
Qed.

(** C8. When the vector search raises during retrieval, the exception
    leaves [_retrieve_context] and [process_query] as it was raised: no
    LLM call is made and no result is returned, so a failure is never
    turned into the "no context found" result of an empty retrieval. *)
Theorem retrieval_failure_propagates (query : str) (t : trace) (e : exn) :
  _is_illegal_query query = false ->
  search_oracle t 10 (3 # 10) query = inl e ->
  _retrieve_context search_oracle query 10 t = (t ++ [EvRetrieve 10 (3 # 10) query], inl e) /\
  process query t = (t ++ [EvRetrieve 10 (3 # 10) query], inl e) /\
  (forall t' r, process query t <> (t', inr r)).
Proof.
  intros Hq Hs.
  assert (Hrun := process_query_retrieval_error search_oracle llm_oracle
                    prompt_template_format query t e Hq Hs).
  split_and!.
  - by rewrite retrieve_context_run, Hs.
  - exact Hrun.
  - intros t' r Hr. rewrite Hrun in Hr. discriminate.
Qed.

End RagClaims.

Section RagExamples.
Import Text Eff Rag.
(* The examples are ASCII text, run with the ASCII tables. *)
Local Existing Instance Text.ascii_tables.

Lemma illegal_keyword_substring_declines_witness :
  process_query (fun _ _ _ _ => inr []) (fun _ _ => inr $"unused") (fun c q => c ++ q)
    $"Can I build a Shack on my land?" []
  = ([], inr (mkAnswerResult (ILLEGAL_ANSWER ++ LEGAL_DISCLAIMER) [] false)).
Proof.
  apply (proj2 (illegal_keyword_substring_declines
                  (fun _ _ _ _ => inr []) (fun _ _ => inr $"unused") (fun c q => c ++ q)
                  $"Can I build a Shack on my land?" [])
           $"hack" $"can i build a s" $" on my land?").
  - apply list_elem_of_In. simpl. tauto.
  - vm_compute. reflexivity.
Defined.

Lemma no_passages_no_context_witness :
  process_query (fun _ _ _ _ => inr []) (fun _ _ => inr $"Tenants have rights.")
    (fun c q => c ++ q) $"What are my rights as a tenant?" []
  = ([EvRetrieve 10 (3 # 10) $"What are my rights as a tenant?";
      EvLlmInvoke (fallback_prompt $"What are my rights as a tenant?")],
     inr (mkAnswerResult ($"Tenants have rights." ++ LEGAL_DISCLAIMER) [] false)).
Proof.
  assert (Hq : _is_illegal_query $"What are my rights as a tenant?" = false)
    by (vm_compute; reflexivity).
  apply (proj1 (no_passages_no_context
                  (fun _ _ _ _ => inr []) (fun _ _ => inr $"Tenants have rights.")
                  (fun c q => c ++ q) $"What are my rights as a tenant?" [] Hq eq_refl)).
Defined.

Lemma retrieval_failure_propagates_witness :
  process_query
    (fun _ _ _ _ => inl (Exception $"RuntimeError" $"Vector store not initialized"))
    (fun _ _ => inr $"unused") (fun c q => c ++ q) $"What are my rights as a tenant?" []
  = ([EvRetrieve 10 (3 # 10) $"What are my rights as a tenant?"],
     inl (Exception $"RuntimeError" $"Vector store not initialized")).
Proof.
  assert (Hq : _is_illegal_query $"What are my rights as a tenant?" = false)
    by (vm_compute; reflexivity).
  apply (retrieval_failure_propagates
           (fun _ _ _ _ => inl (Exception $"RuntimeError" $"Vector store not initialized"))
           (fun _ _ => inr $"unused") (fun c q => c ++ q)
           $"What are my rights as a tenant?" []
           (Exception $"RuntimeError" $"Vector store not initialized") Hq eq_refl).
Defined.

End RagExamples.

Section DisclaimerClaims.
Import Text Safety Eff Legacy Rag TextFacts SafetyFacts LegacyFacts RagFacts.
Context `{U : Tables}.

(** C2, as the code has it.  For a query that passes the safety check,
    the answer of [process_query] is the output of its last LLM call
    followed by the disclaimer, which is appended unconditionally: the run
    ends with an LLM call, and the answer is what the LLM returned to that
    call, followed by the disclaimer.  So the disclaimer occurs once more in
    the answer than in that output, hence exactly once precisely when the
    output did not contain it.  The legacy handler puts its disclaimer
    sentence in front of the generated reply only when the reply lacks "not
    legal advice" (compared case-insensitively), and then the phrase occurs
    exactly once; otherwise it returns the generated reply unchanged. *)
Theorem disclaimer_added_once :
  (forall search_oracle llm_oracle prompt_template_format query t t' r,
     _is_illegal_query query = false ->
     process_query search_oracle llm_oracle prompt_template_format query t = (t', inr r) ->
     exists calls prompt out,
       t' = t ++ calls ++ [EvLlmInvoke prompt] /\
       llm_oracle (t ++ calls) prompt = inr out /\
       answer r = out ++ LEGAL_DISCLAIMER /\
       occurrences LEGAL_DISCLAIMER (answer r) = S (occurrences LEGAL_DISCLAIMER out) /\
       (occurrences LEGAL_DISCLAIMER (answer r) = 1
        <-> contains LEGAL_DISCLAIMER out = false)) /\
  (forall provider generate_oracle user_id message t out,
     classify (Some message) = $"ok" ->
     generate_oracle t SYSTEM_STYLE message = inr out ->
     exists r,
       handle_message provider generate_oracle user_id message t
       = (t ++ [EvGenerate SYSTEM_STYLE message], inr r) /\
       (contains $"not legal advice" (lower out) = false ->
          reply r = $"This is general information, not legal advice." ++ NL ++ NL ++ out /\
          occurrences $"not legal advice" (lower (reply r)) = 1) /\
       (contains $"not legal advice" (lower out) = true -> reply r = out)).
Proof.
  split.
  - intros search_oracle llm_oracle prompt_template_format query t t' r Hq Hrun.
    destruct (process_query_result _ _ _ _ _ _ _ Hq Hrun)
      as [calls [prompt [out [Htrace [Hout [Hans _]]]]]].
    exists calls, prompt, out.
    assert (Hocc : occurrences LEGAL_DISCLAIMER (answer r)
                   = S (occurrences LEGAL_DISCLAIMER out)).
    { rewrite Hans. apply occurrences_app_unbordered.
      - vm_compute. reflexivity.
      - vm_compute. lia. }
    split_and!; try done.
    rewrite Hocc, <- occurrences_zero_contains. lia.
  - intros provider generate_oracle user_id message t out Hok Hgen.
    exists (mkChatRes (enforced out) $"ok" provider).
    rewrite handle_message_ok, Hgen by done.
    split_and!; [done | |]; intros Hc; simpl reply; unfold enforced; rewrite Hc;
      simpl negb; cbv iota; [|done].
    split; [done|].
    rewrite lower_disclaimer_prefix, occurrences_app_no_straddle.
    + apply occurrences_zero_contains in Hc. rewrite Hc. vm_compute. reflexivity.
    + vm_compute. lia.
    + vm_compute. reflexivity.
Qed.

End DisclaimerClaims.

Section DisclaimerExamples.
Import Text Safety Eff Legacy Rag.
(* The examples are ASCII text, run with the ASCII tables. *)
Local Existing Instance Text.ascii_tables.

Lemma disclaimer_added_once_witness :
  occurrences LEGAL_DISCLAIMER ($"Tenants have rights." ++ LEGAL_DISCLAIMER) = 1.
Proof.
  destruct (proj1 disclaimer_added_once
              (fun _ _ _ _ => inr []) (fun _ _ => inr $"Tenants have rights.")
              (fun c q => c ++ q) $"What are my rights as a tenant?" []
              [EvRetrieve 10 (3 # 10) $"What are my rights as a tenant?";
               EvLlmInvoke (fallback_prompt $"What are my rights as a tenant?")]
              (mkAnswerResult ($"Tenants have rights." ++ LEGAL_DISCLAIMER) [] false))
    as [calls [prompt [out [_ [Hout [_ [_ Hiff]]]]]]].
  - vm_compute. reflexivity.
  - vm_compute. reflexivity.
  - injection Hout as <-. apply Hiff. vm_compute. reflexivity.
Defined.

(** C2 fails as stated: when the LLM output already ends with the
    disclaimer, [process_query] appends it once more and the answer
    contains it twice; and a generated reply that contains the disclaimer
    sentence twice leaves the legacy handler unchanged. *)
Lemma disclaimer_can_occur_twice :
  let query := $"What are my rights as a tenant?" in
  let llm := fun (_ : trace) (_ : str) =>
               inr ($"Tenants have rights." ++ LEGAL_DISCLAIMER) : exn + str in
  let generate := fun (_ : trace) (_ _ : str) =>
                    inr ($"This is general information, not legal advice. Tenants have rights. "
                         ++ $"This is general information, not legal advice.") : exn + str in
  (exists t' r,
     _is_illegal_query query = false /\
     process_query (fun _ _ _ _ => inr []) llm (fun c q => c ++ q) query [] = (t', inr r) /\
     occurrences LEGAL_DISCLAIMER (answer r) = 2 /\
     occurrences $"This is general legal information, not legal advice." (answer r) = 2) /\
  (exists t' r,
     classify (Some query) = $"ok" /\
     handle_message $"gemini" generate None query [] = (t', inr r) /\
     occurrences $"This is general information, not legal advice." (reply r) = 2).
Proof.
  split.
  - eexists _, _. split_and!; [ | vm_compute; reflexivity | | ]; vm_compute; reflexivity.
  - eexists _, _. split_and!; [ | vm_compute; reflexivity | ]; vm_compute; reflexivity.
Qed.

End DisclaimerExamples.

Section RetryClaims.
Import Text Eff Rag TextFacts RagFacts.
Context `{U : Tables}.

(** C3.  The claim describes the retry correctly except for the citations:
    on the query and the passage of the specification's own scenario, with a
    grounded answer that reports insufficient information, [process_query]
    calls the LLM again with the direct prompt, uses the second output and
    reports [has_context = true], but returns an empty citation list,
    although [_extract_citations] yields a citation for the passage. *)
Theorem insufficient_retry_returns_no_citations :
  let query := $"What are the fundamental rights in the Indian Constitution?" in
  let passage :=
    Rag.mkDocument $"Part III of the Constitution deals with Fundamental Rights."
      {[ $"source" := Rag.VStr $"constitution.pdf";
         $"title" := Rag.VStr $"Constitution of India" ]} in
  let search := fun (_ : Eff.trace) (_ : nat) (_ : Q) (_ : str) =>
                  inr [passage] : Eff.exn + list Rag.Document in
  let format := fun context question : str => context ++ question in
  let llm := fun (_ : Eff.trace) (prompt : str) =>
               (if Text.startswith $"You are a helpful legal AI assistant." prompt
                then inr $"Part III guarantees six fundamental rights."
                else inr $"I don't have enough verified information in my knowledge base to answer that precisely.")
               : Eff.exn + str in
  Rag._is_illegal_query query = false /\
  Rag.process_query search llm format query []
  = ([Eff.EvRetrieve 10 (3 # 10) query;
      Eff.EvLlmInvoke (format (Rag.format_context [passage]) query);
      Eff.EvLlmInvoke (Rag.fallback_prompt query)],
     inr {| Rag.answer := $"Part III guarantees six fundamental rights." ++ Rag.LEGAL_DISCLAIMER;
            Rag.citations := [];
            Rag.has_context := true |}) /\
  Rag._extract_citations [passage]
  = [ {| Rag.source_title := Rag.VStr $"Constitution of India";
         Rag.source := Rag.VStr $"constitution.pdf";
         Rag.snippet := $"Part III of the Constitution deals with Fundamental Rights.";
         Rag.section := None;
         Rag.page := None |} ].
Proof.
  intros query passage search format llm.
  assert (Hq : _is_illegal_query query = false).
  { rewrite is_illegal_query_ascii by (vm_compute; reflexivity). vm_compute. reflexivity. }
  split_and!.
  - exact Hq.
  - apply (process_query_insufficient_retry search llm format query [] [passage]
             $"I don't have enough verified information in my knowledge base to answer that precisely."
             $"Part III guarantees six fundamental rights.");
      try solve [ exact Hq | vm_compute; reflexivity | discriminate ].
    rewrite insufficient_ascii by (vm_compute; reflexivity). vm_compute. reflexivity.
  - vm_compute. reflexivity.
Qed.

End RetryClaims.

Section SafetyBranchClaims.
Import Text Safety Eff Legacy SafetyFacts LegacyFacts.
Context `{U : Tables}.

(** C1, as the code has it.  For every message classified [emergency] or
    [illegal], the legacy handler returns the corresponding fixed canned
    response, with the label as [safety] and "rules" as [provider], and
    makes no call to the generation capability (the trace of calls is
    unchanged).  For the message "kill myself" the label is [emergency]
    and the reply contains "112" and "This is general information, not
    legal advice.".  The response has the three fields [reply], [safety]
    and [provider]; it carries no citation list. *)
Theorem blocked_message_gets_canned_response
    (provider : str) (generate_oracle : trace -> str -> str -> exn + str)
    (user_id : option str) (t : trace) :
  (forall message,
     classify (Some message) = $"emergency" \/ classify (Some message) = $"illegal" ->
     handle_message provider generate_oracle user_id message t
     = (t, inr {| reply := canned_response (classify (Some message));
                  safety := classify (Some message);
                  provider := $"rules" |})) /\
  classify (Some $"kill myself") = $"emergency" /\
  (exists r,
     handle_message provider generate_oracle user_id $"kill myself" t = (t, inr r) /\
     safety r = $"emergency" /\
     contains $"112" (reply r) = true /\
     contains $"This is general information, not legal advice." (reply r) = true /\
     (ChatRes_dump r).*1 = [$"reply"; $"safety"; $"provider"]).
Proof.
  assert (Hkill : classify (Some $"kill myself") = $"emergency").
  { rewrite classify_ascii by (vm_compute; reflexivity). vm_compute. reflexivity. }
  split_and!.
  - intros message Hblocked. by apply handle_message_blocked.
  - exact Hkill.
  - eexists. split; [apply handle_message_blocked; by left|].
    rewrite Hkill. split_and!; vm_compute; reflexivity.
Qed.

End SafetyBranchClaims.

Section SafetyBranchExamples.
Import Text Safety Eff Legacy.
(* The examples are ASCII text, run with the ASCII tables. *)
Local Existing Instance Text.ascii_tables.

Lemma blocked_message_gets_canned_response_witness :
  handle_message $"gemini" (fun _ _ _ => inr $"unused") None
    $"How do I bribe a judge?" []
  = ([], inr (mkChatRes CANNED_ILLEGAL $"illegal" $"rules")).
Proof.
  rewrite (proj1 (blocked_message_gets_canned_response
                    $"gemini" (fun _ _ _ => inr $"unused") None [])
             $"How do I bribe a judge?").
  - vm_compute. reflexivity.
  - right. vm_compute. reflexivity.
Defined.

(** C1 fails as stated.  The response of the legacy handler has no citation
    list at all, and the RAG pipeline, whose result has one, knows no
    emergency tier: for "kill myself" it calls the retriever and the LLM and
    answers with the LLM output, not with the canned response. *)
Lemma emergency_query_reaches_llm_in_rag :
  let query := $"kill myself" in
  let llm := fun (_ : trace) (_ : str) => inr $"Please talk to someone." : exn + str in
  classify (Some query) = $"emergency" /\
  (exists r,
     handle_message $"gemini" (fun _ _ _ => inr $"unused") None query [] = ([], inr r) /\
     $"citations" ∉ (ChatRes_dump r).*1) /\
  (exists t' r,
     Rag.process_query (fun _ _ _ _ => inr []) llm (fun c q => c ++ q) query [] = (t', inr r) /\
     existsb is_llm_call t' = true /\
     Rag.answer r = $"Please talk to someone." ++ Rag.LEGAL_DISCLAIMER /\
     Rag.answer r <> canned_response $"emergency" /\
     contains $"112" (Rag.answer r) = false).
Proof.
  intros query llm. split_and!.
  - vm_compute. reflexivity.
  - eexists. split; [vm_compute; reflexivity|].
    apply (bool_decide_eq_false_1 _). vm_compute. reflexivity.
  - eexists _, _. split_and!; [vm_compute; reflexivity | vm_compute; reflexivity
                              | vm_compute; reflexivity | | vm_compute; reflexivity].
    apply (bool_decide_eq_false_1 _). vm_compute. reflexivity.
Qed.

End SafetyBranchExamples.

(** ** app/rag.py: citation extraction *)

Module CitationFacts.
Import Text Rag.

Section FirstOccurrences.
Context {A K : Type} `{EqDecision K} (key : A -> K).

Lemma first_occurrences_sublist (l : list A) :
  sublist (first_occurrences key l) l.
Proof.
  induction l as [|x l IH]; simpl; [done|].
  apply sublist_skip. etrans; [apply sublist_filter | exact IH].
Qed.

Lemma first_occurrences_keys (l : list A) (x : A) :
  x ∈ l -> key x ∈ key <$> first_occurrences key l.
Proof.
  induction l as [|y l IH]; [by intros ?%elem_of_nil|].
  intros [-> | Hx]%elem_of_cons; simpl; [by left|].
  destruct (decide (key x = key y)) as [-> | Hne]; [by left|].
  right. specialize (IH Hx). apply list_elem_of_fmap in IH as [z [Hz Hin]].
  apply list_elem_of_fmap. exists z. split; [done|].
  apply list_elem_of_filter. split; [congruence | done].
Qed.

Lemma first_occurrences_NoDup (l : list A) :
  NoDup (key <$> first_occurrences key l).
Proof.
  induction l as [|x l IH]; simpl; [constructor|].
  apply NoDup_cons. split.
  - intros [z [Hz [Hne _]%list_elem_of_filter]]%list_elem_of_fmap. congruence.
  - eapply sublist_NoDup; [exact IH|].
    apply fmap_sublist, sublist_filter.
Qed.

(** Each element kept is preceded in [l] only by elements with other
    keys. *)
Lemma first_occurrences_first (l : list A) (x : A) :
  x ∈ first_occurrences key l ->
  exists pre post, l = pre ++ x :: post /\ forall y, y ∈ pre -> key y <> key x.
Proof.
  induction l as [|a l IH]; [by intros ?%elem_of_nil|]. simpl.
  intros [-> | [Hne Hx]%list_elem_of_filter]%elem_of_cons.
  - exists [], l. split; [done|]. by intros y ?%elem_of_nil.
  - destruct (IH Hx) as [pre [post [-> Hpre]]].
    exists (a :: pre), post. split; [done|].
    intros y [-> | Hy]%elem_of_cons; [congruence | by apply Hpre].
Qed.

Lemma filter_none (P : A -> Prop) `{forall x, Decision (P x)} (l : list A) :
  (forall y, y ∈ l -> ~ P y) -> filter P l = [].
Proof.
  induction l as [|x l IH]; intros Hl; [done|].
  rewrite filter_cons, decide_False by (apply Hl; by left).
  apply IH. intros y Hy. apply Hl. by right.
Qed.

Lemma NoDup_key_filter_length (l : list A) (k : K) :
  NoDup (key <$> l) -> length (filter (fun x => key x = k) l) <= 1.
Proof.
  induction l as [|x l IH]; simpl; [lia|].
  intros [Hx Hl]%NoDup_cons. rewrite filter_cons. case_decide as Hk.
  - assert (filter (fun y => key y = k) l = []) as ->; [|simpl; lia].
    apply filter_none. intros y Hy Hky.
    apply Hx, list_elem_of_fmap. exists y. split; [congruence | done].
  - by apply IH.
Qed.
End FirstOccurrences.

Lemma citation_id_make (doc : Document) :
  citation_id (make_citation doc) = source_id doc.
Proof. reflexivity. Qed.

Lemma citation_key_make (doc : Document) :
  citation_key (make_citation doc) = passage_key doc.
Proof. reflexivity. Qed.

(** The identifier is a function of the composite key. *)
Lemma source_id_of_key (d1 d2 : Document) :
  passage_key d1 = passage_key d2 -> source_id d1 = source_id d2.
Proof.
  unfold passage_key, source_id. intros [= -> ->]. done.
Qed.

Lemma foldl_extract_step (documents : list Document) :
  forall citations seen_sources,
    (foldl extract_step (citations, seen_sources) documents).1
    = citations ++ extract_from seen_sources documents.
Proof.
  induction documents as [|doc rest IH]; intros citations seen; simpl.
  - by rewrite app_nil_r.
  - case_bool_decide; rewrite IH; [done|]. by rewrite <- app_assoc.
Qed.

Lemma extract_from_first_occurrences (documents : list Document) :
  forall seen_sources : gset str,
    extract_from seen_sources documents
    = make_citation <$> filter (fun doc => source_id doc ∉ seen_sources)
                               (first_occurrences source_id documents).
Proof.
  induction documents as [|doc rest IH]; intros seen; simpl; [done|].
  rewrite filter_cons. case_bool_decide as Hseen.
  - rewrite decide_False by (intros Hn; by apply Hn).
    rewrite IH. f_equal. symmetry. apply list_filter_filter_l.
    intros d Hd Heq. apply Hd. by rewrite Heq.
  - rewrite decide_True by done. rewrite fmap_cons. f_equal.
    rewrite IH. f_equal. rewrite list_filter_filter.
    apply list_filter_iff. intros d.
    rewrite not_elem_of_union, not_elem_of_singleton. tauto.
Qed.

(** [_extract_citations] keeps, in retrieval order, the passages that are
    the first with their identifier. *)
Lemma extract_citations_first_occurrences (documents : list Document) :
  _extract_citations documents
  = make_citation <$> first_occurrences source_id documents.
Proof.
  unfold _extract_citations. rewrite foldl_extract_step. simpl.
  rewrite extract_from_first_occurrences. f_equal.
  induction (first_occurrences source_id documents) as [|d l IH]; [done|].
  rewrite filter_cons, decide_True by set_solver. by rewrite IH.
Qed.

Lemma extract_citations_from_documents (documents : list Document) (c : Citation) :
  c ∈ _extract_citations documents ->
  exists doc, doc ∈ documents /\ c = make_citation doc.
Proof.
  rewrite extract_citations_first_occurrences.
  intros [doc [-> Hdoc]]%list_elem_of_fmap. exists doc. split; [|done].
  eapply elem_of_sublist; [exact Hdoc | apply first_occurrences_sublist].
Qed.

Lemma extract_citations_nonempty (documents : list Document) :
  documents <> [] -> _extract_citations documents <> [].
Proof.
  rewrite extract_citations_first_occurrences.
  destruct documents; [done | discriminate].
Qed.

(** What the deduplication guarantees: one citation per identifier, made
    from the first passage that carries it, in retrieval order; hence at
    most one citation per composite key, and exactly one when no two
    passages with different keys share an identifier. *)
Lemma extract_citations_dedup (documents : list Document) :
  let cits := _extract_citations documents in
  cits = make_citation <$> first_occurrences source_id documents /\
  sublist (first_occurrences source_id documents) documents /\
  NoDup (citation_id <$> cits) /\
  (forall doc, doc ∈ documents ->
     exists c, c ∈ cits /\ citation_id c = source_id doc) /\
  (forall k, length (filter (fun c => citation_key c = k) cits) <= 1) /\
  ((forall d1 d2, d1 ∈ documents -> d2 ∈ documents ->
      source_id d1 = source_id d2 -> passage_key d1 = passage_key d2) ->
   forall doc, doc ∈ documents ->
     length (filter (fun c => citation_key c = passage_key doc) cits) = 1).
Proof.
  intros cits.
  assert (Hcits : cits = make_citation <$> first_occurrences source_id documents)
    by apply extract_citations_first_occurrences.
  assert (Hnodup : NoDup (citation_id <$> cits)).
  { rewrite Hcits, <- list_fmap_compose.
    apply (first_occurrences_NoDup source_id). }
  assert (Hcover : forall doc, doc ∈ documents ->
            exists c, c ∈ cits /\ citation_id c = source_id doc).
  { intros doc Hdoc.
    apply (first_occurrences_keys source_id) in Hdoc.
    apply list_elem_of_fmap in Hdoc as [d [Hd Hin]].
    exists (make_citation d). split; [|by rewrite citation_id_make].
    rewrite Hcits. apply list_elem_of_fmap. eauto. }
  assert (Hkey : forall c1 c2, citation_key c1 = citation_key c2 ->
            citation_id c1 = citation_id c2).
  { intros c1 c2. unfold citation_key, citation_id. intros [= -> ->]. done. }
  assert (Hmost : forall k, length (filter (fun c => citation_key c = k) cits) <= 1).
  { intros k.
    destruct (filter (fun c => citation_key c = k) cits) as [|c1 [|c2 l]] eqn:E;
      simpl; [lia | lia |].
    exfalso.
    assert (Hsub : sublist [c1; c2] cits).
    { etrans; [|apply (sublist_filter (fun c => citation_key c = k))].
      rewrite E. apply sublist_skip, sublist_skip, sublist_nil_l. }
    assert (H1 : citation_key c1 = k).
    { apply (list_elem_of_filter (fun c => citation_key c = k) cits c1).
      rewrite E. by left. }
    assert (H2 : citation_key c2 = k).
    { apply (list_elem_of_filter (fun c => citation_key c = k) cits c2).
      rewrite E. right. by left. }
    assert (Hdup : NoDup (citation_id <$> [c1; c2])).
    { eapply sublist_NoDup; [exact Hnodup|]. by apply fmap_sublist. }
    simpl in Hdup. apply NoDup_cons in Hdup as [Hne _].
    apply Hne. rewrite (Hkey c1 c2) by congruence. by left. }
  split_and!; try done.
  - apply first_occurrences_sublist.
  - intros Hinj doc Hdoc.
    specialize (Hmost (passage_key doc)).
    destruct (Hcover doc Hdoc) as [c [Hc Hid]].
    destruct (extract_citations_from_documents documents c Hc) as [d [Hd ->]].
    assert (Hin : make_citation d
                  ∈ filter (fun c => citation_key c = passage_key doc) cits).
    { apply list_elem_of_filter. split; [|done].
      rewrite citation_key_make. apply Hinj; [done | done |].
      by rewrite <- citation_id_make. }
    destruct (filter (fun c => citation_key c = passage_key doc) cits) as [|? [|? ?]];
      simpl in *; [by apply elem_of_nil in Hin | done | lia].
Qed.

End CitationFacts.

Section CitationClaims.
Import Text Rag CitationFacts.

(** C7, as the code has it.  The snippet of every citation is taken from
    a retrieved passage: it is the passage text itself when that text has
    at most 200 characters, and otherwise its first 200 characters
    followed by the three-character marker "...".  So the marker is
    present only when the text was truncated, and a snippet has at most
    203 characters, more than 200 exactly when truncation occurred. *)
Theorem citation_snippet_truncation (documents : list Document) (c : Citation) :
  c ∈ _extract_citations documents ->
  exists doc,
    doc ∈ documents /\ c = make_citation doc /\
    (length (page_content doc) <= 200 -> snippet c = page_content doc) /\
    (200 < length (page_content doc) ->
       snippet c = take 200 (page_content doc) ++ $"..." /\
       length (snippet c) = 203) /\
    take 200 (snippet c) = take 200 (page_content doc) /\
    length (snippet c) <= 203.
Proof.
  intros Hc.
  destruct (extract_citations_from_documents documents c Hc) as [doc [Hdoc ->]].
  exists doc. simpl snippet. unfold content_snippet.
  destruct (200 <? length (page_content doc)) eqn:E.
  - apply Nat.ltb_lt in E.
    assert (Hlen : length (take 200 (page_content doc) ++ $"...") = 203).
    { rewrite length_app, length_take_le by lia. reflexivity. }
    split_and!; try done; try lia.
    rewrite take_app_le by (rewrite length_take_le; lia).
    apply take_idemp.
  - apply Nat.ltb_ge in E. split_and!; try done; lia.
Qed.

End CitationClaims.

Lemma citation_snippet_truncation_witness :
  let doc := Rag.mkDocument $"Article 21 of the Constitution of India provides that no person shall be deprived of his life or personal liberty except according to procedure established by law, and the courts have read into it the right to live with dignity, the right to livelihood and the right to a speedy trial." ∅ in
  Rag.snippet (Rag.make_citation doc)
  = $"Article 21 of the Constitution of India provides that no person shall be deprived of his life or personal liberty except according to procedure established by law, and the courts have read into it the" ++ $"..." /\
  length (Rag.page_content doc) = 285 /\
  length (Rag.snippet (Rag.make_citation doc)) = 203.
Proof.
  intros doc.
  destruct (citation_snippet_truncation [doc] (Rag.make_citation doc))
    as [doc' [Hdoc [_ [_ [Hlong _]]]]].
  - left.
  - apply list_elem_of_singleton in Hdoc as ->.
    split; [|split; [reflexivity|]]; apply Hlong; vm_compute; lia.
Defined.

(** C7 fails as stated: a passage of 201 characters yields a snippet of 203
    characters. *)
Lemma snippet_can_exceed_200 :
  let doc := Rag.mkDocument (replicate 201 97%N) ∅ in
  exists c,
    Rag._extract_citations [doc] = [c] /\
    length (Rag.page_content doc) = 201 /\
    length (Rag.snippet c) = 203 /\
    ~ length (Rag.snippet c) <= 200.
Proof.
  eexists. split_and!; [vm_compute; reflexivity | reflexivity | reflexivity |].
  vm_compute. lia.
Qed.

(** C4.  Two passages with the same source and the same first 50
    characters are kept apart from the rest only through the identifier
    [source_snippet50]; an earlier passage with another source whose
    identifier reads the same hides them, and the citation list then has no
    entry for their key. *)
Theorem identifier_collision_drops_citation :
  let first := Rag.mkDocument $"b_c" {[ $"source" := Rag.VStr $"a" ]} in
  let second := Rag.mkDocument $"c" {[ $"source" := Rag.VStr $"a_b" ]} in
  let third := Rag.mkDocument $"c" {[ $"source" := Rag.VStr $"a_b" ]} in
  Rag.passage_key second = Rag.passage_key third /\
  Rag.passage_key first <> Rag.passage_key second /\
  Rag.source_id first = Rag.source_id second /\
  Rag._extract_citations [first; second; third] = [Rag.make_citation first] /\
  length (filter (fun c => Rag.citation_key c = Rag.passage_key second)
                 (Rag._extract_citations [first; second; third])) = 0.
Proof.
  intros first second third. split_and!; try (vm_compute; reflexivity).
  apply (bool_decide_eq_false_1 _). vm_compute. reflexivity.
Qed.

(** * Further properties of the pipelines *)

(** ** app/rag.py: calls, failures and results of [process_query] *)

Module RagRuns.
Import Text Eff Rag TextFacts RagFacts.

Section Pipeline.
Context `{U : Tables}.
Variable search_oracle : trace -> nat -> Q -> str -> exn + list Document.
Variable llm_oracle : trace -> str -> exn + str.
Variable prompt_template_format : str -> str -> str.

Abbreviation process := (process_query search_oracle llm_oracle prompt_template_format).
Abbreviation grounded_prompt_of documents query :=
  (prompt_template_format (format_context documents) query).

(** X1. A run of [process_query] makes no call at all for a query that fails
    its safety check, and otherwise one retrieval call (k = 10, threshold
    0.3) followed by at most two LLM calls; when there are two, the second
    one carries the direct prompt. *)
Theorem process_query_call_budget (query : str) (t : trace) :
  exists calls outcome,
    process query t = (t ++ calls, outcome) /\
    (_is_illegal_query query = true -> calls = []) /\
    (_is_illegal_query query = false ->
       calls = [EvRetrieve 10 (3 # 10) query] \/
       (exists prompt, calls = [EvRetrieve 10 (3 # 10) query; EvLlmInvoke prompt]) \/
       (exists prompt, calls = [EvRetrieve 10 (3 # 10) query; EvLlmInvoke prompt;
                                EvLlmInvoke (fallback_prompt query)])).
Proof.
  destruct (_is_illegal_query query) eqn:Hq.
  - exists [], (inr (mkAnswerResult (ILLEGAL_ANSWER ++ LEGAL_DISCLAIMER) [] false)).
    rewrite process_query_illegal, app_nil_r by done. by split_and!.
  - destruct (search_oracle t 10 (3 # 10) query) as [e | documents] eqn:Hs.
    + exists [EvRetrieve 10 (3 # 10) query], (inl e).
      rewrite (process_query_retrieval_error _ _ _ _ _ e) by done.
      split_and!; [done | done | auto].
    + destruct (decide (documents = [])) as [-> | Hne].
      * eexists [EvRetrieve 10 (3 # 10) query; EvLlmInvoke (fallback_prompt query)], _.
        rewrite process_query_no_documents by done. unfold after_retrieval.
        rewrite <- app_assoc. split_and!; [reflexivity | done | eauto].
      * rewrite (process_query_grounded _ _ _ _ _ documents) by done.
        unfold after_grounded, after_retrieval.
        destruct (llm_oracle _ _) as [e | out].
        { eexists [EvRetrieve 10 (3 # 10) query; EvLlmInvoke _], _.
          rewrite <- app_assoc. split_and!; [reflexivity | done | eauto]. }
        destruct (insufficient out).
        { eexists [EvRetrieve 10 (3 # 10) query; EvLlmInvoke _; EvLlmInvoke _], _.
          rewrite <- !app_assoc. split_and!; [reflexivity | done | eauto]. }
        eexists [EvRetrieve 10 (3 # 10) query; EvLlmInvoke _], _.
        rewrite <- app_assoc. split_and!; [reflexivity | done | eauto].
Qed.

(** X2. Every answer [process_query] returns, the decline answer included,
    ends with the legal disclaimer; and the result reports context exactly
    when the query passed the safety check and retrieval returned at least
    one passage. *)
Theorem process_query_result_shape (query : str) (t t' : trace) (r : AnswerResult) :
  process query t = (t', inr r) ->
  (exists body, answer r = body ++ LEGAL_DISCLAIMER) /\
  (has_context r = true <->
     _is_illegal_query query = false /\
     exists doc rest, search_oracle t 10 (3 # 10) query = inr (doc :: rest)).
Proof.
  intros Hrun. destruct (_is_illegal_query query) eqn:Hq.
  - rewrite process_query_illegal in Hrun by done. injection Hrun as _ <-.
    split; [by exists ILLEGAL_ANSWER|]. simpl. split; [done | by intros [? _]].
  - destruct (search_oracle t 10 (3 # 10) query) as [e | documents] eqn:Hs.
    { rewrite (process_query_retrieval_error _ _ _ _ _ e) in Hrun by done. discriminate. }
    destruct documents as [|doc rest].
    + rewrite process_query_no_documents in Hrun by done.
      destruct (llm_oracle _ _) as [e | out]; simpl in Hrun; [discriminate|].
      injection Hrun as _ <-. split; [by exists out|]. simpl.
      split; [done | by intros [_ [? [? ?]]]].
    + rewrite (process_query_grounded _ _ _ _ _ (doc :: rest)) in Hrun by done.
      destruct (llm_oracle _ _) as [e | out]; [discriminate|].
      destruct (insufficient out).
      * destruct (llm_oracle _ _) as [e | out2]; simpl in Hrun; [discriminate|].
        injection Hrun as _ <-. split; [by exists out2|]. simpl. split; eauto.
      * simpl in Hrun. injection Hrun as _ <-. split; [by exists out|]. simpl. split; eauto.
Qed.

(** X3. A failure of the LLM is never absorbed: whichever LLM call raises
    (the direct call after an empty retrieval, the grounded call, or the
    retry after an insufficient grounded answer), [process_query] ends with
    that exception, and a failed grounded call is not followed by a retry. *)
Theorem llm_failure_propagates (query : str) (t : trace) (e : exn) :
  _is_illegal_query query = false ->
  (search_oracle t 10 (3 # 10) query = inr [] ->
   llm_oracle (after_retrieval query t) (fallback_prompt query) = inl e ->
   process query t
   = (t ++ [EvRetrieve 10 (3 # 10) query; EvLlmInvoke (fallback_prompt query)], inl e)) /\
  (forall documents,
     documents <> [] ->
     search_oracle t 10 (3 # 10) query = inr documents ->
     llm_oracle (after_retrieval query t) (grounded_prompt_of documents query) = inl e ->
     process query t
     = (t ++ [EvRetrieve 10 (3 # 10) query;
              EvLlmInvoke (grounded_prompt_of documents query)], inl e)) /\
  (forall documents out,
     documents <> [] ->
     search_oracle t 10 (3 # 10) query = inr documents ->
     llm_oracle (after_retrieval query t) (grounded_prompt_of documents query) = inr out ->
     insufficient out = true ->
     llm_oracle (after_grounded (grounded_prompt_of documents query) query t)
                (fallback_prompt query) = inl e ->
     process query t
     = (t ++ [EvRetrieve 10 (3 # 10) query;
              EvLlmInvoke (grounded_prompt_of documents query);
              EvLlmInvoke (fallback_prompt query)], inl e)).
Proof.
  intros Hq. split_and!.
  - intros Hs Hl. rewrite process_query_no_documents, Hl by done.
    unfold after_retrieval. by rewrite <- app_assoc.
  - intros documents Hne Hs Hl.
    rewrite (process_query_grounded _ _ _ _ _ documents), Hl by done.
    unfold after_grounded, after_retrieval. by rewrite <- app_assoc.
  - intros documents out Hne Hs Hl Hins Hl2.
    rewrite (process_query_grounded _ _ _ _ _ documents), Hl, Hins, Hl2 by done.
    unfold after_grounded, after_retrieval. by rewrite <- !app_assoc.
Qed.

(** X4. When retrieval returns passages and the grounded answer carries
    neither marker phrase, that answer is used as it is: one LLM call, with
    the prompt built from the formatted context and the query, and a result
    with the disclaimer appended and [has_context = true]. *)
Theorem grounded_answer_is_used (query : str) (t : trace)
    (documents : list Document) (out : str) :
  _is_illegal_query query = false ->
  documents <> [] ->
  search_oracle t 10 (3 # 10) query = inr documents ->
  llm_oracle (t ++ [EvRetrieve 10 (3 # 10) query]) (grounded_prompt_of documents query)
  = inr out ->
  contains $"don't have enough" (lower out) = false ->
  contains $"insufficient information" (lower out) = false ->
  process query t
  = (t ++ [EvRetrieve 10 (3 # 10) query; EvLlmInvoke (grounded_prompt_of documents query)],
     inr {| answer := out ++ LEGAL_DISCLAIMER; citations := []; has_context := true |}).
Proof.
  intros Hq Hne Hs Hl H1 H2.
  rewrite (process_query_grounded _ _ _ _ _ documents) by done.
  unfold after_retrieval. rewrite Hl. unfold insufficient. rewrite H1, H2. simpl.
  unfold after_grounded, after_retrieval. by rewrite <- app_assoc.
Qed.

End Pipeline.

End RagRuns.

Section RagRunsExamples.
Import Text Eff Rag.
(* The examples are ASCII text, run with the ASCII tables. *)
Local Existing Instance Text.ascii_tables.

Lemma process_query_result_shape_witness :
  exists body,
    $"Tenants have rights." ++ Rag.LEGAL_DISCLAIMER = body ++ Rag.LEGAL_DISCLAIMER.
Proof.
  apply (RagRuns.process_query_result_shape
           (fun _ _ _ _ => inr []) (fun _ _ => inr $"Tenants have rights.")
           (fun c q => c ++ q) $"What are my rights as a tenant?" []
           [Eff.EvRetrieve 10 (3 # 10) $"What are my rights as a tenant?";
            Eff.EvLlmInvoke (Rag.fallback_prompt $"What are my rights as a tenant?")]
           (Rag.mkAnswerResult ($"Tenants have rights." ++ Rag.LEGAL_DISCLAIMER) [] false)).
  vm_compute. reflexivity.
Defined.

Lemma llm_failure_propagates_witness :
  Rag.process_query (fun _ _ _ _ => inr [])
    (fun _ _ => inl (Eff.Exception $"TimeoutError" $"deadline exceeded"))
    (fun c q => c ++ q) $"What are my rights as a tenant?" []
  = ([Eff.EvRetrieve 10 (3 # 10) $"What are my rights as a tenant?";
      Eff.EvLlmInvoke (Rag.fallback_prompt $"What are my rights as a tenant?")],
     inl (Eff.Exception $"TimeoutError" $"deadline exceeded")).
Proof.
  assert (Hq : _is_illegal_query $"What are my rights as a tenant?" = false)
    by (vm_compute; reflexivity).
  apply (proj1 (RagRuns.llm_failure_propagates
                  (fun _ _ _ _ => inr [])
                  (fun _ _ => inl (Eff.Exception $"TimeoutError" $"deadline exceeded"))
                  (fun c q => c ++ q) $"What are my rights as a tenant?" []
                  (Eff.Exception $"TimeoutError" $"deadline exceeded") Hq)).
  - reflexivity.
  - reflexivity.
Defined.

Lemma grounded_answer_is_used_witness :
  let passage := Rag.mkDocument $"Article 21 protects life and personal liberty."
                   {[ $"source" := Rag.VStr $"constitution.pdf" ]} in
  Rag.process_query (fun _ _ _ _ => inr [passage])
    (fun _ _ => inr $"Article 21 protects life and liberty.")
    (fun c q => c ++ q) $"What does Article 21 protect?" []
  = ([Eff.EvRetrieve 10 (3 # 10) $"What does Article 21 protect?";
      Eff.EvLlmInvoke (Rag.format_context [passage] ++ $"What does Article 21 protect?")],
     inr (Rag.mkAnswerResult ($"Article 21 protects life and liberty." ++ Rag.LEGAL_DISCLAIMER)
                             [] true)).
Proof.
  intros passage.
  apply (RagRuns.grounded_answer_is_used
           (fun _ _ _ _ => inr [passage])
           (fun _ _ => inr $"Article 21 protects life and liberty.")
           (fun c q => c ++ q) $"What does Article 21 protect?" [] [passage]
           $"Article 21 protects life and liberty.");
    solve [ vm_compute; reflexivity | discriminate ].
Defined.

End RagRunsExamples.

(** ** app/rag.py: more on citation extraction *)

Module CitationRuns.
Import Text Rag CitationFacts.

Section FirstOccurrences.
Context {A K : Type} `{EqDecision K} (key : A -> K).

Lemma filter_all (P : A -> Prop) `{forall x, Decision (P x)} (l : list A) :
  (forall y, y ∈ l -> P y) -> filter P l = l.
Proof.
  induction l as [|x l IH]; intros Hl; [done|].
  rewrite filter_cons, decide_True by (apply Hl; by left).
  f_equal. apply IH. intros y Hy. apply Hl. by right.
Qed.

Lemma first_occurrences_distinct (l : list A) :
  NoDup (key <$> l) -> first_occurrences key l = l.
Proof.
  induction l as [|x l IH]; [done|]. rewrite fmap_cons.
  intros [Hx Hl]%NoDup_cons. simpl. rewrite IH by done. f_equal.
  apply filter_all. intros y Hy Heq. apply Hx. rewrite <- Heq.
  apply list_elem_of_fmap. eauto.
Qed.

Lemma filter_length_all (P : A -> Prop) `{forall x, Decision (P x)} (l : list A) :
  length (filter P l) = length l -> forall y, y ∈ l -> P y.
Proof.
  induction l as [|x l IH]; intros Hlen y Hy; [by apply elem_of_nil in Hy|].
  assert (Hle := sublist_length _ _ (sublist_filter P l)).
  rewrite filter_cons in Hlen. case_decide as Hx; simpl in Hlen; [|lia].
  apply elem_of_cons in Hy as [-> | Hy]; [done|]. apply IH; [lia | done].
Qed.

Lemma first_occurrences_length (l : list A) :
  length (first_occurrences key l) = length l -> NoDup (key <$> l).
Proof.
  induction l as [|x l IH]; [constructor|].
  change (first_occurrences key (x :: l))
    with (x :: filter (fun y => key y <> key x) (first_occurrences key l)).
  rewrite fmap_cons. simpl length. intros Hlen.
  assert (Hsub := sublist_length _ _ (first_occurrences_sublist key l)).
  assert (Hf := sublist_length _ _ (sublist_filter (fun y => key y <> key x)
                                                   (first_occurrences key l))).
  apply NoDup_cons. split; [|apply IH; lia].
  intros [y [Hy Hyl]]%list_elem_of_fmap.
  apply (first_occurrences_keys key) in Hyl.
  apply list_elem_of_fmap in Hyl as [z [Hz Hzl]].
  apply (filter_length_all (fun y => key y <> key x)) in Hzl; [|lia].
  congruence.
Qed.

(** First occurrences of a concatenation. *)
Lemma first_occurrences_app (l m : list A) :
  first_occurrences key (l ++ m)
  = first_occurrences key l
    ++ filter (fun y => key y ∉ key <$> l) (first_occurrences key m).
Proof.
  induction l as [|x l IH]; simpl.
  - symmetry. apply filter_all. intros y _. apply not_elem_of_nil.
  - f_equal. rewrite IH, filter_app. f_equal.
    rewrite list_filter_filter. apply list_filter_iff. intros y.
    rewrite not_elem_of_cons. tauto.
Qed.

(** Filtering by a property of the key commutes with taking first
    occurrences. *)
Lemma first_occurrences_filter (Q : A -> Prop) `{forall y, Decision (Q y)} (m : list A) :
  (forall y z, key y = key z -> Q y -> Q z) ->
  first_occurrences key (filter Q m) = filter Q (first_occurrences key m).
Proof.
  intros HQ. induction m as [|y m IH]; [done|].
  rewrite filter_cons. case_decide as Hy; simpl.
  - rewrite filter_cons, decide_True by done. f_equal.
    rewrite IH, !list_filter_filter. apply list_filter_iff. intros z. tauto.
  - rewrite IH, filter_cons, decide_False by done.
    symmetry. apply list_filter_filter_l.
    intros z Hz Heq. apply Hy. by apply (HQ z y).
Qed.
End FirstOccurrences.

(** The identifier only looks at the first 50 characters of the text. *)
Lemma snippet_prefix (content : str) :
  take 50 (content_snippet content) = take 50 content.
Proof.
  unfold content_snippet. destruct (200 <? length content) eqn:E; [|done].
  apply Nat.ltb_lt in E.
  rewrite take_app_le by (rewrite length_take_le; lia).
  rewrite take_take. f_equal.
Qed.

Lemma extract_citations_app (documents more : list Document) :
  _extract_citations (documents ++ more)
  = _extract_citations documents
    ++ _extract_citations
         (filter (fun doc => source_id doc ∉ source_id <$> documents) more).
Proof.
  rewrite !extract_citations_first_occurrences, first_occurrences_app, fmap_app.
  f_equal. f_equal.
  symmetry. apply (first_occurrences_filter source_id).
  intros y z Heq. by rewrite Heq.
Qed.

End CitationRuns.

Section CitationExtras.
Import Text Rag CitationFacts CitationRuns.

(** X5. Citation extraction over a concatenation: the citations of the
    first list, followed by the citations of those later passages whose
    identifier does not occur in the first list.  So passages whose
    identifiers were all seen before add nothing, and extracting from a list
    followed by a copy of itself gives the citations of the list. *)
Theorem extract_citations_concat (documents more : list Document) :
  _extract_citations (documents ++ more)
  = _extract_citations documents
    ++ _extract_citations
         (filter (fun doc => source_id doc ∉ source_id <$> documents) more) /\
  ((forall doc, doc ∈ more -> source_id doc ∈ source_id <$> documents) ->
   _extract_citations (documents ++ more) = _extract_citations documents) /\
  _extract_citations (documents ++ documents) = _extract_citations documents.
Proof.
  assert (Hseen : forall more' : list Document,
            (forall doc, doc ∈ more' -> source_id doc ∈ source_id <$> documents) ->
            _extract_citations (documents ++ more') = _extract_citations documents).
  { intros more' Hall. rewrite extract_citations_app.
    rewrite (filter_none (fun doc => source_id doc ∉ source_id <$> documents) more').
    - by rewrite app_nil_r.
    - intros doc Hdoc Hn. by apply Hn, Hall. }
  split_and!; [apply extract_citations_app | apply Hseen |].
  apply Hseen. intros doc Hdoc. apply list_elem_of_fmap. eauto.
Qed.

(** X6. There are never more citations than passages, and none only for an
    empty passage list; every passage is cited (in order, one citation each)
    exactly when the identifiers of the passages are pairwise distinct. *)
Theorem extract_citations_count (documents : list Document) :
  length (_extract_citations documents) <= length documents /\
  (_extract_citations documents = [] <-> documents = []) /\
  (NoDup (source_id <$> documents) ->
   _extract_citations documents = make_citation <$> documents) /\
  (length (_extract_citations documents) = length documents ->
   NoDup (source_id <$> documents)).
Proof.
  rewrite extract_citations_first_occurrences, length_fmap. split_and!.
  - apply sublist_length, first_occurrences_sublist.
  - destruct documents; simpl; split; done.
  - intros Hnd. by rewrite first_occurrences_distinct.
  - apply first_occurrences_length.
Qed.

(** X7. What a citation takes from the metadata of its passage: the source
    is the "source" entry, or "Unknown Source" when there is none; the title
    is the "title" entry, or the source when there is none; the section is
    present exactly when the metadata has a "section" entry, and the page
    exactly when it has a "page" entry, which is then rendered as text. *)
Theorem citation_metadata_defaults (documents : list Document) (c : Citation) :
  c ∈ _extract_citations documents ->
  exists doc,
    doc ∈ documents /\
    source c = default (VStr $"Unknown Source") (metadata doc !! $"source") /\
    source_title c = default (source c) (metadata doc !! $"title") /\
    section c = metadata doc !! $"section" /\
    page c = py_str <$> metadata doc !! $"page".
Proof.
  intros Hc.
  destruct (extract_citations_from_documents documents c Hc) as [doc [Hdoc ->]].
  exists doc. by split_and!.
Qed.

(** X8. Deduplication looks at no more than the rendered source and the
    first 50 characters of the passage text: a passage that agrees on both
    with an earlier passage gets no citation of its own, whatever its text
    is after the 50th character and whatever else its metadata holds. *)
Theorem same_prefix_passage_not_cited (documents : list Document) (earlier later : Document) :
  earlier ∈ documents ->
  py_str (doc_source earlier) = py_str (doc_source later) ->
  take 50 (page_content earlier) = take 50 (page_content later) ->
  _extract_citations (documents ++ [later]) = _extract_citations documents.
Proof.
  intros Hin Hsrc Htxt. rewrite extract_citations_app.
  rewrite (filter_none (fun doc => source_id doc ∉ source_id <$> documents) [later]).
  - by rewrite app_nil_r.
  - intros doc ->%list_elem_of_singleton Hn. apply Hn.
    apply list_elem_of_fmap. exists earlier. split; [|done].
    unfold source_id. by rewrite !snippet_prefix, Hsrc, Htxt.
Qed.

End CitationExtras.

Lemma extract_citations_concat_witness :
  let passage := Rag.mkDocument $"Article 21 protects life and personal liberty."
                   {[ $"source" := Rag.VStr $"constitution.pdf" ]} in
  Rag._extract_citations ([passage] ++ [passage; passage]) = Rag._extract_citations [passage].
Proof.
  intros passage.
  apply (proj1 (proj2 (extract_citations_concat [passage] [passage; passage]))).
  intros doc Hdoc. apply elem_of_cons in Hdoc as [-> | Hdoc].
  - vm_compute. left.
  - apply list_elem_of_singleton in Hdoc as ->. vm_compute. left.
Defined.

Lemma extract_citations_count_witness :
  let first := Rag.mkDocument $"Article 21 protects life and personal liberty."
                 {[ $"source" := Rag.VStr $"constitution.pdf" ]} in
  let second := Rag.mkDocument $"Whoever commits theft shall be punished."
                  {[ $"source" := Rag.VStr $"bns.pdf" ]} in
  Rag._extract_citations [first; second] = Rag.make_citation <$> [first; second].
Proof.
  intros first second.
  apply (proj1 (proj2 (proj2 (extract_citations_count [first; second])))).
  apply (bool_decide_eq_true_1 _). vm_compute. reflexivity.
Defined.

Lemma citation_metadata_defaults_witness :
  let passage := Rag.mkDocument $"Whoever commits theft shall be punished."
                   {[ $"page" := Rag.VInt 12 ]} in
  exists doc,
    doc ∈ [passage] /\
    Rag.source (Rag.make_citation passage)
    = default (Rag.VStr $"Unknown Source") (Rag.metadata doc !! $"source").
Proof.
  intros passage.
  destruct (citation_metadata_defaults [passage] (Rag.make_citation passage))
    as [doc [Hdoc [Hsrc _]]].
  - vm_compute. left.
  - exists doc. by split.
Defined.

Lemma same_prefix_passage_not_cited_witness :
  let earlier :=
    Rag.mkDocument $"THE CONSTITUTION OF INDIA. PART III. FUNDAMENTAL RIGHTS. Article 14: equality before law."
      {[ $"source" := Rag.VStr $"constitution.pdf"; $"page" := Rag.VInt 6 ]} in
  let later :=
    Rag.mkDocument $"THE CONSTITUTION OF INDIA. PART III. FUNDAMENTAL RIGHTS. Article 21: life and liberty."
      {[ $"source" := Rag.VStr $"constitution.pdf"; $"page" := Rag.VInt 9 ]} in
  Rag._extract_citations ([earlier] ++ [later]) = Rag._extract_citations [earlier].
Proof.
  intros earlier later.
  apply (same_prefix_passage_not_cited [earlier] earlier later).
  - left.
  - vm_compute. reflexivity.
  - vm_compute. reflexivity.
Defined.

(** ** app/rag.py: the context string and the keyword check *)

Module ContextFacts.
Import Text Eff Rag TextFacts RagFacts.

Lemma join_part (sep p : str) (parts : list str) :
  p ∈ parts -> exists pre post, join sep parts = pre ++ p ++ post.
Proof.
  induction parts as [|p0 rest IH]; [by intros ?%elem_of_nil|].
  intros [-> | Hin]%elem_of_cons.
  - destruct rest as [|p1 rest].
    + exists [], []. by rewrite app_nil_r.
    + by exists [], (sep ++ join sep (p1 :: rest)).
  - destruct (IH Hin) as [pre [post Heq]].
    destruct rest as [|p1 rest]; [by apply elem_of_nil in Hin|].
    exists (p0 ++ sep ++ pre), post.
    change (join sep (p0 :: p1 :: rest)) with (p0 ++ sep ++ join sep (p1 :: rest)).
    rewrite Heq. by rewrite <- !app_assoc.
Qed.

(** A keyword found in the lower-case form of a query is found in the
    lower-case form of every text around the query: the keywords are
    ASCII. *)
Lemma is_illegal_query_embedded `{U : Tables} (pre query post : str) :
  _is_illegal_query query = true -> _is_illegal_query (pre ++ query ++ post) = true.
Proof.
  unfold _is_illegal_query. cbv zeta. rewrite !existsb_exists.
  intros [keyword [Hkw Hc]]. exists keyword. split; [done|].
  apply lower_embed; [|done].
  assert (Hall : forallb is_ascii ILLEGAL_KEYWORDS = true) by (vm_compute; reflexivity).
  rewrite forallb_forall in Hall. by apply Hall.
Qed.

End ContextFacts.

Section ContextExtras.
Import Text Eff Rag TextFacts RagFacts ContextFacts.
Context `{U : Tables}.

Variable search_oracle : trace -> nat -> Q -> str -> exn + list Document.
Variable llm_oracle : trace -> str -> exn + str.
Variable prompt_template_format : str -> str -> str.

(** X9. When the search answers, [_retrieve_context] makes that one call
    (with the given k and the threshold 0.3) and hands the passages back
    unchanged, together with a context string that is empty exactly when
    there is no passage and in which every passage occurs as a block: the
    label "[Source i: source]" with its position i counted from 1 and its
    source ("Unknown" when the metadata has none), a newline, the passage
    text and a newline. *)
Theorem retrieve_context_blocks (query : str) (k : nat) (t : trace)
    (documents : list Document) :
  search_oracle t k (3 # 10) query = inr documents ->
  exists context,
    _retrieve_context search_oracle query k t
    = (t ++ [EvRetrieve k (3 # 10) query], inr (context, documents)) /\
    (context = [] <-> documents = []) /\
    (forall i doc,
       documents !! i = Some doc ->
       exists pre post,
         context
         = pre ++ ($"[Source " ++ ascii_str (pretty (S i)) ++ $": "
                   ++ py_str (default (VStr $"Unknown") (metadata doc !! $"source"))
                   ++ $"]" ++ NL ++ page_content doc ++ NL) ++ post).
Proof.
  intros Hs. rewrite retrieve_context_run, Hs.
  destruct documents as [|d ds].
  - exists []. split_and!; [done | done |]. intros i doc Hi. by rewrite lookup_nil in Hi.
  - exists (format_context (d :: ds)). split_and!; [done | |].
    + assert (Hne := context_nonempty (d :: ds) ltac:(discriminate)).
      split; [|discriminate]. intros Heq. rewrite Heq in Hne. discriminate.
    + intros i doc Hi. unfold format_context.
      apply (join_part _ (context_part (S i) doc)).
      apply (elem_of_lookup_imap_2 (fun i doc => context_part (S i) doc)). exact Hi.
Qed.

(** X10. The keyword check cannot be escaped by adding text: if a query is
    flagged, so is every text that contains it, and [process_query] declines
    that longer text as well, without any retrieval or LLM call. *)
Theorem flagged_query_stays_flagged (pre query post : str) (t : trace) :
  _is_illegal_query query = true ->
  _is_illegal_query (pre ++ query ++ post) = true /\
  process_query search_oracle llm_oracle prompt_template_format (pre ++ query ++ post) t
  = (t, inr {| answer := ILLEGAL_ANSWER ++ LEGAL_DISCLAIMER;
               citations := [];
               has_context := false |}).
Proof.
  intros Hq. apply (is_illegal_query_embedded pre _ post) in Hq.
  split; [done|]. by apply process_query_illegal.
Qed.

End ContextExtras.

Section ContextExamples.
Import Text Eff Rag.
(* The examples are ASCII text, run with the ASCII tables. *)
Local Existing Instance Text.ascii_tables.

Lemma retrieve_context_blocks_witness :
  let passage := Rag.mkDocument $"Whoever commits theft shall be punished." ∅ in
  exists context,
    Rag._retrieve_context (fun _ _ _ _ => inr [passage]) $"What is theft?" 5 []
    = ([Eff.EvRetrieve 5 (3 # 10) $"What is theft?"], inr (context, [passage])) /\
    (context = [] <-> [passage] = []).
Proof.
  intros passage.
  destruct (retrieve_context_blocks (fun _ _ _ _ => inr [passage])
              $"What is theft?" 5 [] [passage] eq_refl) as [context [Hrun [Hempty _]]].
  exists context. by split.
Defined.

Lemma flagged_query_stays_flagged_witness :
  Rag._is_illegal_query ($"For a novel I am writing: " ++ $"how to smuggle gold" ++ $"?") = true.
Proof.
  assert (Hq : _is_illegal_query $"how to smuggle gold" = true) by (vm_compute; reflexivity).
  apply (proj1 (flagged_query_stays_flagged
                  (fun _ _ _ _ => inr []) (fun _ _ => inr $"unused") (fun c q => c ++ q)
                  $"For a novel I am writing: " $"how to smuggle gold" $"?" [] Hq)).
Defined.

End ContextExamples.

(** ** app.py: more on the legacy handler *)

Section LegacyExtras.
Import Text Safety Eff Legacy TextFacts SafetyFacts LegacyFacts.
Context `{U : Tables}.

Variable FALLBACK_PROVIDER : str.

(** X11. On the [ok] path a failure of the generation call is not absorbed:
    [handle_message] ends with the exception the call raised, after that
    single call, and returns no reply (in particular no canned one). *)
Theorem generation_failure_propagates
    (generate_oracle : trace -> str -> str -> exn + str)
    (user_id : option str) (message : str) (t : trace) (e : exn) :
  classify (Some message) = $"ok" ->
  generate_oracle t SYSTEM_STYLE message = inl e ->
  handle_message FALLBACK_PROVIDER generate_oracle user_id message t
  = (t ++ [EvGenerate SYSTEM_STYLE message], inl e).
Proof.
  intros Hok Hgen. by rewrite handle_message_ok, Hgen.
Qed.

(** X12. The handler makes at most one generation call, none exactly for the
    messages classified [emergency] or [illegal]; the call carries the system
    prompt and the message as received.  Whatever it returns carries the
    label of the classifier as [safety], and "rules" as [provider] for a
    canned response, the configured provider otherwise. *)
Theorem handle_message_calls_and_labels
    (generate_oracle : trace -> str -> str -> exn + str)
    (user_id : option str) (message : str) (t : trace) :
  exists calls outcome,
    handle_message FALLBACK_PROVIDER generate_oracle user_id message t
    = (t ++ calls, outcome) /\
    (classify (Some message) <> $"ok" -> calls = []) /\
    (classify (Some message) = $"ok" -> calls = [EvGenerate SYSTEM_STYLE message]) /\
    (forall r, outcome = inr r ->
       safety r = classify (Some message) /\
       provider r = if bool_decide (classify (Some message) = $"ok")
                    then FALLBACK_PROVIDER else $"rules").
Proof.
  destruct (classify_cases (Some message)) as [E | [E | E]].
  - eexists [], _. rewrite handle_message_blocked, app_nil_r by auto.
    rewrite E. split_and!; [done | done | discriminate |].
    intros r [= <-]. by split.
  - eexists [], _. rewrite handle_message_blocked, app_nil_r by auto.
    rewrite E. split_and!; [done | done | discriminate |].
    intros r [= <-]. by split.
  - eexists [EvGenerate SYSTEM_STYLE message], _. rewrite handle_message_ok by done.
    rewrite E. split_and!; [done | done | done |].
    intros r Hr. destruct (generate_oracle _ _ _); [discriminate|].
    injection Hr as <-. by split.
Qed.

(** X13. The disclaimer enforcement never alters the generated text, it only
    may put the disclaimer sentence and a blank line in front of it; and it
    is stable: a reply of the handler, given back to it as the generated
    text, is returned unchanged. *)
Theorem enforcement_is_stable
    (generate_oracle generate_again : trace -> str -> str -> exn + str)
    (user_id : option str) (message : str) (t : trace) (out : str) :
  classify (Some message) = $"ok" ->
  generate_oracle t SYSTEM_STYLE message = inr out ->
  exists r,
    handle_message FALLBACK_PROVIDER generate_oracle user_id message t
    = (t ++ [EvGenerate SYSTEM_STYLE message], inr r) /\
    (reply r = out \/
     reply r = $"This is general information, not legal advice." ++ NL ++ NL ++ out) /\
    (generate_again t SYSTEM_STYLE message = inr (reply r) ->
     handle_message FALLBACK_PROVIDER generate_again user_id message t
     = (t ++ [EvGenerate SYSTEM_STYLE message], inr r)).
Proof.
  intros Hok Hgen. exists (mkChatRes (enforced out) $"ok" FALLBACK_PROVIDER).
  rewrite handle_message_ok, Hgen by done. simpl reply. split_and!; [done | |].
  - unfold enforced. destruct (contains _ (lower out)); simpl; auto.
  - intros Hagain. rewrite handle_message_ok, Hagain by done.
    do 3 f_equal. unfold enforced at 1.
    by rewrite enforced_has_disclaimer.
Qed.

End LegacyExtras.

Section LegacyExtrasExamples.
Import Text Safety Eff Legacy.
(* The examples are ASCII text, run with the ASCII tables. *)
Local Existing Instance Text.ascii_tables.

Lemma generation_failure_propagates_witness :
  Legacy.handle_message $"gemini"
    (fun _ _ _ => inl (Eff.Exception $"RuntimeError" $"Missing GEMINI_API_KEY in .env"))
    None $"Can my landlord keep my deposit?" []
  = ([Eff.EvGenerate Legacy.SYSTEM_STYLE $"Can my landlord keep my deposit?"],
     inl (Eff.Exception $"RuntimeError" $"Missing GEMINI_API_KEY in .env")).
Proof.
  apply (generation_failure_propagates $"gemini"
           (fun _ _ _ => inl (Eff.Exception $"RuntimeError" $"Missing GEMINI_API_KEY in .env"))
           None $"Can my landlord keep my deposit?" []
           (Eff.Exception $"RuntimeError" $"Missing GEMINI_API_KEY in .env")).
  - vm_compute. reflexivity.
  - reflexivity.
Defined.

Lemma enforcement_is_stable_witness :
  exists r,
    Legacy.handle_message $"gemini" (fun _ _ _ => inr $"Ask a lawyer.") None
      $"Can my landlord keep my deposit?" []
    = ([Eff.EvGenerate Legacy.SYSTEM_STYLE $"Can my landlord keep my deposit?"], inr r) /\
    (Legacy.reply r = $"Ask a lawyer." \/
     Legacy.reply r = $"This is general information, not legal advice." ++ Text.NL
                      ++ Text.NL ++ $"Ask a lawyer.").
Proof.
  destruct (enforcement_is_stable $"gemini" (fun _ _ _ => inr $"Ask a lawyer.")
              (fun _ _ _ => inr $"Ask a lawyer.")
              None $"Can my landlord keep my deposit?" [] $"Ask a lawyer.")
    as [r [Hrun [Hreply _]]].
  - vm_compute. reflexivity.
  - reflexivity.
  - exists r. by split.
Defined.

End LegacyExtrasExamples.

(** ** safety.py: what the patterns match *)

Module WordFacts.
Import Text Regex Safety SafetyWords TextFacts RegexFacts SafetyFacts.

Section Words.
Context `{U : Tables}.

(** Whether an ASCII text starts or ends with a word character does not
    depend on the tables. *)
Lemma head_word_ascii (s : str) :
  is_ascii s = true -> head_word s = head_word (U := ascii_tables) s.
Proof.
  destruct s as [|c s]; [done|]. simpl. intros [Hc _]%andb_true_iff.
  unfold head_word. simpl. by apply is_word_ascii.
Qed.

Lemma last_word_ascii (s : str) :
  is_ascii s = true -> last_word s = last_word (U := ascii_tables) s.
Proof.
  intros Hs. unfold last_word. destruct (last s) as [c|] eqn:E; [|done].
  apply is_word_ascii. rewrite last_lookup in E. by eapply is_ascii_lookup.
Qed.

Lemma wordlike_ascii (w : str) :
  is_ascii w = true ->
  head_word (U := ascii_tables) w = true -> last_word (U := ascii_tables) w = true ->
  head_word w = true /\ last_word w = true.
Proof. intros Hw Hh Hl. by rewrite head_word_ascii, last_word_ascii. Qed.

Lemma head_word_app (a b : str) : a <> [] -> head_word (a ++ b) = head_word a.
Proof. by destruct a. Qed.

Lemma last_word_app (a b : str) : b <> [] -> last_word (a ++ b) = last_word b.
Proof.
  intros Hb. unfold last_word. rewrite last_app.
  destruct (last b) eqn:E; [done|]. apply last_None in E. done.
Qed.

Lemma boundary_app (a b : str) :
  boundary (a ++ b) (length a) = xorb (last_word a) (head_word b).
Proof.
  unfold boundary. f_equal.
  - destruct a as [|c a]; [done|]. simpl length. unfold word_at, last_word.
    rewrite last_lookup. simpl Init.Nat.pred.
    by rewrite lookup_app_l by (simpl; lia).
  - unfold word_at, head_word. rewrite lookup_app_r by lia.
    rewrite Nat.sub_diag. by destruct b.
Qed.

Lemma matches_seq (t : str) (r1 r2 : regex) (i j : nat) :
  matches t (Seq r1 r2) i j <-> exists k, matches t r1 i k /\ matches t r2 k j.
Proof.
  split.
  - inversion 1; subst; eauto.
  - intros [k [H1 H2]]. by apply (m_seq _ _ _ _ k).
Qed.

Lemma matches_alt (t : str) (r1 r2 : regex) (i j : nat) :
  matches t (Alt r1 r2) i j <-> matches t r1 i j \/ matches t r2 i j.
Proof.
  split.
  - inversion 1; subst; auto.
  - intros [H | H]; [by apply m_alt_l | by apply m_alt_r].
Qed.

Lemma matches_bnd (pre rest : str) (j : nat) :
  matches (pre ++ rest) Bnd (length pre) j
  <-> j = length pre /\ xorb (last_word pre) (head_word rest) = true.
Proof.
  rewrite <- boundary_app. split.
  - inversion 1; subst. done.
  - intros [-> Hb]. by constructor.
Qed.

Lemma snoc_split (pre : str) (c : char) (rest : str) :
  pre ++ c :: rest = (pre ++ [c]) ++ rest /\ S (length pre) = length (pre ++ [c]).
Proof. rewrite <- app_assoc, length_app. simpl. split; [done | lia]. Qed.

(** A literal consumes exactly its text. *)
Lemma matches_lit (pre rest w : str) (j : nat) :
  matches (pre ++ rest) (Lit w) (length pre) j
  <-> j = length pre + length w /\ exists rest', rest = w ++ rest'.
Proof.
  revert pre rest j. induction w as [|c w IH]; intros pre rest j; simpl.
  - split.
    + inversion 1; subst. split; [lia | by exists rest].
    + intros [-> _]. rewrite Nat.add_0_r. constructor.
  - rewrite matches_seq. split.
    + intros [k [H1 H2]]. inversion H1 as [ | c' i' Hc | | | | | | | ]; subst.
      rewrite lookup_app_r, Nat.sub_diag in Hc by lia.
      destruct rest as [|c' rest]; [discriminate|]. injection Hc as ->.
      destruct (snoc_split pre c rest) as [Ht Hlen]. rewrite Ht, Hlen in H2.
      apply IH in H2 as [-> [rest' ->]]. rewrite <- Hlen.
      split; [lia | by exists rest'].
    + intros [-> [rest' ->]]. exists (S (length pre)). split.
      * constructor. by rewrite lookup_app_r, Nat.sub_diag by lia.
      * destruct (snoc_split pre c (w ++ rest')) as [Ht Hlen].
        change ((c :: w) ++ rest') with (c :: w ++ rest').
        rewrite Ht, Hlen. apply IH. rewrite <- Hlen. split; [lia | by exists rest'].
Qed.

(** [.*] consumes any run of characters without a newline. *)
Lemma matches_star_dot (pre rest : str) (j : nat) :
  matches (pre ++ rest) (Star Dot) (length pre) j
  <-> exists mid rest',
        rest = mid ++ rest' /\ j = length pre + length mid /\
        forall c, c ∈ mid -> is_newline c = false.
Proof.
  split.
  - intros H. remember (Star Dot) as r eqn:Er. remember (length pre) as i eqn:Ei.
    remember (pre ++ rest) as t eqn:Et.
    revert pre rest Ei Et.
    induction H as [ | | | | | | | r' i | r' i j k H1 _ H2 IH2 ];
      try discriminate; injection Er as ->; intros pre rest -> ->.
    + exists [], rest. split_and!; [done | simpl; lia |]. by intros c ?%elem_of_nil.
    + inversion H1 as [ | | c i' Hc Hn | | | | | | ]; subst.
      rewrite lookup_app_r, Nat.sub_diag in Hc by lia.
      destruct rest as [|c' rest]; [discriminate|]. injection Hc as ->.
      destruct (snoc_split pre c rest) as [Ht Hlen].
      destruct (IH2 eq_refl (pre ++ [c]) rest Hlen Ht) as [mid [rest' [-> [-> Hmid]]]].
      exists (c :: mid), rest'. split_and!; [done | simpl; lia |].
      intros c' [-> | Hc']%elem_of_cons; [done | by apply Hmid].
  - intros [mid [rest' [-> [-> Hmid]]]]. revert pre Hmid.
    induction mid as [|c mid IH]; intros pre Hmid.
    + rewrite Nat.add_0_r. constructor.
    + apply (m_star_step _ _ _ (S (length pre))).
      * apply (m_dot _ c); [by rewrite lookup_app_r, Nat.sub_diag by lia|].
        apply Hmid. by left.
      * destruct (snoc_split pre c (mid ++ rest')) as [Ht Hlen].
        change ((c :: mid) ++ rest') with (c :: mid ++ rest').
        rewrite Ht, Hlen.
        replace (length pre + length (c :: mid)) with (length (pre ++ [c]) + length mid)
          by (simpl; lia).
        apply IH. intros c' Hc'. apply Hmid. by right.
Qed.

(** [\bw\b] from a given position. *)
Lemma matches_word (pre rest w : str) (j : nat) :
  head_word w = true -> last_word w = true ->
  matches (pre ++ rest) (word w) (length pre) j
  <-> exists post,
        rest = w ++ post /\ j = length pre + length w /\
        last_word pre = false /\ head_word post = false.
Proof.
  intros Hh Hl. assert (Hw : w <> []) by (by destruct w).
  unfold word. rewrite matches_seq. split.
  - intros [k [[-> Hb1]%matches_bnd [k2 [[-> [post ->]]%matches_lit H2]]%matches_seq]].
    rewrite app_assoc in H2. rewrite <- length_app in H2.
    apply matches_bnd in H2 as [-> Hb2].
    rewrite head_word_app, Hh in Hb1 by done.
    rewrite last_word_app, Hl in Hb2 by done.
    exists post. rewrite length_app. split_and!; [done | done | |].
    + by destruct (last_word pre).
    + by destruct (head_word post).
  - intros [post [-> [-> [Hp Hq]]]]. exists (length pre). split.
    + apply matches_bnd. split; [done|]. by rewrite head_word_app, Hh, Hp.
    + apply matches_seq. exists (length pre + length w). split.
      * apply matches_lit. split; [done | by exists post].
      * rewrite app_assoc, <- length_app. apply matches_bnd.
        split; [done|]. by rewrite last_word_app, Hl, Hq.
Qed.

(** Every position of a text splits it. *)
Lemma position_split (t : str) (i : nat) :
  i <= length t -> exists pre rest, t = pre ++ rest /\ i = length pre.
Proof.
  intros Hi. exists (take i t), (drop i t).
  split; [by rewrite take_drop | by rewrite length_take_le].
Qed.

Lemma word_whole_word (w t : str) :
  head_word w = true -> last_word w = true ->
  search (word w) t = true <-> whole_word w t.
Proof.
  intros Hh Hl. rewrite search_matches_in. unfold matches_in, whole_word. split.
  - intros [i [j [Hi Hm]]].
    destruct (position_split t i Hi) as [pre [rest [-> ->]]].
    apply matches_word in Hm as [post [-> [_ [Hp Hq]]]]; eauto.
  - intros [pre [post [-> [Hp Hq]]]]. exists (length pre), (length pre + length w).
    split; [rewrite length_app; lia|]. apply matches_word; eauto.
Qed.

Lemma fake_pattern_fake_evidence (t : str) :
  search FAKE_PATTERN t = true <-> fake_evidence t.
Proof.
  rewrite search_matches_in. unfold matches_in, fake_evidence, FAKE_PATTERN.
  assert (Hx : forall x : str, x ∈ [$"doc"; $"document"; $"evidence"] ->
                 x <> [] /\ head_word x = true /\ last_word x = true).
  { intros x Hx.
    repeat (apply elem_of_cons in Hx as [-> | Hx];
            [split; [done | by apply wordlike_ascii]|]).
    by apply elem_of_nil in Hx. }
  destruct (wordlike_ascii $"fake" eq_refl eq_refl eq_refl) as [Hfh Hfl].
  split.
  - intros [i [j [Hi Hm]]].
    destruct (position_split t i Hi) as [pre [rest [-> ->]]].
    apply matches_seq in Hm as [k1 [H1 Hm]].
    apply matches_word in H1 as [rest1 [-> [-> [Hpre Hrest1]]]]; [|done|done].
    rewrite app_assoc, <- length_app in Hm.
    apply matches_seq in Hm as [k2 [H2 Hm]].
    apply matches_star_dot in H2 as [mid [rest2 [-> [-> Hmid]]]].
    rewrite app_assoc, <- length_app in Hm.
    apply matches_seq in Hm as [k3 [[-> Hb3]%matches_bnd Hm]].
    apply matches_seq in Hm as [k4 [H4 H5]].
    assert (exists x post, x ∈ [$"doc"; $"document"; $"evidence"] /\
              rest2 = x ++ post /\ k4 = length ((pre ++ $"fake") ++ mid) + length x)
      as [x [post [Hin [-> ->]]]].
    { apply matches_alt in H4 as [H4 | H4]; [|apply matches_alt in H4 as [H4 | H4]];
        apply matches_lit in H4 as [-> [post ->]]; eexists _, post;
        (split; [|done]); apply list_elem_of_In; simpl; tauto. }
    destruct (Hx x Hin) as [Hxne [Hxh Hxl]].
    rewrite app_assoc, <- length_app in H5. apply matches_bnd in H5 as [_ Hb5].
    rewrite last_word_app, Hxl in Hb5 by done.
    rewrite head_word_app, Hxh in Hb3 by done.
    assert (Hmne : mid <> []).
    { intros ->. simpl in Hrest1. rewrite head_word_app, Hxh in Hrest1 by done.
      discriminate. }
    rewrite head_word_app in Hrest1 by done.
    rewrite last_word_app in Hb3 by done.
    exists pre, mid, x, post. split_and!; try done.
    + by destruct (last_word mid).
    + by destruct (head_word post).
  - intros [pre [mid [x [post [-> [Hin [Hpre [Hmne [Hmh [Hml [Hmid Hpost]]]]]]]]]]].
    destruct (Hx x Hin) as [Hxne [Hxh Hxl]].
    exists (length pre), (length ((((pre ++ $"fake") ++ mid) ++ x))).
    split; [rewrite !length_app; simpl; lia|].
    apply matches_seq. exists (length (pre ++ $"fake")). split.
    { apply matches_word; [done | done |]. exists (mid ++ x ++ post).
      rewrite length_app, head_word_app by done. by split_and!. }
    rewrite app_assoc. apply matches_seq. exists (length ((pre ++ $"fake") ++ mid)). split.
    { apply matches_star_dot. exists mid, (x ++ post).
      rewrite (length_app _ mid). by split_and!. }
    rewrite app_assoc. apply matches_seq. exists (length ((pre ++ $"fake") ++ mid)). split.
    { apply matches_bnd. split; [done|].
      by rewrite last_word_app, Hml, head_word_app, Hxh by done. }
    apply matches_seq. exists (length (((pre ++ $"fake") ++ mid) ++ x)). split.
    + assert (Hlit : matches (((pre ++ $"fake") ++ mid) ++ x ++ post) (Lit x)
                       (length ((pre ++ $"fake") ++ mid))
                       (length (((pre ++ $"fake") ++ mid) ++ x))).
      { apply matches_lit. rewrite (length_app _ x). split; [done | by exists post]. }
      repeat (apply elem_of_cons in Hin as [-> | Hin];
              [first [ by apply m_alt_l
                     | by apply m_alt_r, m_alt_l
                     | by apply m_alt_r, m_alt_r ] |]).
      by apply elem_of_nil in Hin.
    + rewrite app_assoc. apply matches_bnd. split; [done|].
      by rewrite last_word_app, Hxl, Hpost by done.
Qed.
End Words.

End WordFacts.

Section WordExtras.
Import Text Regex Safety SafetyWords RegexFacts SafetyFacts WordFacts.
Context `{U : Tables}.

Lemma any_search_words (ws : list str) (t : str) :
  (forall w, w ∈ ws -> head_word w = true /\ last_word w = true) ->
  any_search (word <$> ws) t = true <-> exists w, w ∈ ws /\ whole_word w t.
Proof.
  intros Hws. unfold any_search. rewrite existsb_exists. split.
  - intros [p [Hp Hs]]. apply list_elem_of_In, list_elem_of_fmap in Hp as [w [-> Hw]].
    exists w. split; [done|]. destruct (Hws w Hw). by apply word_whole_word.
  - intros [w [Hw Hs]]. exists (word w). split.
    + apply list_elem_of_In, list_elem_of_fmap. eauto.
    + destruct (Hws w Hw). by apply word_whole_word.
Qed.

Lemma emergency_words_wordlike (w : str) :
  w ∈ EMERGENCY_WORDS -> head_word w = true /\ last_word w = true.
Proof.
  intros Hw. repeat (apply elem_of_cons in Hw as [-> | Hw]; [by apply wordlike_ascii|]).
  by apply elem_of_nil in Hw.
Qed.

Lemma illegal_words_wordlike (w : str) :
  w ∈ ILLEGAL_WORDS -> head_word w = true /\ last_word w = true.
Proof.
  intros Hw. repeat (apply elem_of_cons in Hw as [-> | Hw]; [by apply wordlike_ascii|]).
  by apply elem_of_nil in Hw.
Qed.

Lemma any_search_illegal (t : str) :
  any_search ILLEGAL t = true
  <-> (exists w, w ∈ ILLEGAL_WORDS /\ whole_word w t) \/ fake_evidence t.
Proof.
  rewrite <- (any_search_words ILLEGAL_WORDS t illegal_words_wordlike).
  rewrite <- fake_pattern_fake_evidence.
  change (any_search ILLEGAL t)
    with (search (word $"forge") t
          || (search FAKE_PATTERN t
              || any_search (word <$> [$"bribe"; $"blackmail"; $"extort"; $"threaten"]) t)).
  change (any_search (word <$> ILLEGAL_WORDS) t)
    with (search (word $"forge") t
          || any_search (word <$> [$"bribe"; $"blackmail"; $"extort"; $"threaten"]) t).
  rewrite !orb_true_iff. tauto.
Qed.

(** X14. The emergency tier is a whole-word test: a text is classified
    [emergency] exactly when its lower-cased form contains one of
    "violence", "assault", "rape", "stalking", "kill myself", "suicide"
    neither preceded nor followed by a word character of [re] (a letter or
    a digit of any script, or an underscore).  A keyword inside a longer
    word does not count. *)
Theorem emergency_iff_whole_word (text : option str) :
  classify text = $"emergency"
  <-> exists w, w ∈ EMERGENCY_WORDS /\ whole_word w (lower (default [] text)).
Proof.
  rewrite <- (any_search_words EMERGENCY_WORDS _ emergency_words_wordlike).
  change (word <$> EMERGENCY_WORDS) with EMERGENCY.
  unfold classify. cbv zeta.
  destruct (any_search EMERGENCY _); [done|].
  destruct (any_search ILLEGAL _); split; discriminate.
Qed.

(** X15. The illegal tier: a text is classified [illegal] exactly when no
    emergency word occurs in it as a whole word and its lower-cased form
    contains one of "forge", "bribe", "blackmail", "extort", "threaten" as a
    whole word, or the whole word "fake" followed on the same line, after at
    least one character and with no word character touching either side, by
    the whole word "doc", "document" or "evidence". *)
Theorem illegal_iff_words (text : option str) :
  classify text = $"illegal"
  <-> ~ (exists w, w ∈ EMERGENCY_WORDS /\ whole_word w (lower (default [] text))) /\
      ((exists w, w ∈ ILLEGAL_WORDS /\ whole_word w (lower (default [] text))) \/
       fake_evidence (lower (default [] text))).
Proof.
  rewrite <- (any_search_words EMERGENCY_WORDS _ emergency_words_wordlike).
  rewrite <- any_search_illegal.
  change (word <$> EMERGENCY_WORDS) with EMERGENCY.
  unfold classify. cbv zeta.
  destruct (any_search EMERGENCY _).
  - split; [discriminate | by intros [? _]].
  - destruct (any_search ILLEGAL _); split; try done.
    intros [_ ?]. discriminate.
Qed.

End WordExtras.

(** ** Whitespace stripping *)

Module WhitespaceFacts.
Import Text Whitespace.

Section Strip.
Context `{U : Tables}.

Lemma lstrip_split (s : str) : exists ws, s = ws ++ lstrip s /\ all_space ws.
Proof.
  induction s as [|c s [ws [Hs Hws]]]; simpl.
  - exists []. split; [done | constructor].
  - destruct (is_space c) eqn:E.
    + exists (c :: ws). split; [by rewrite Hs at 1 | by constructor].
    + exists []. split; [done | constructor].
Qed.

Lemma lstrip_head (s : str) : head_space (lstrip s) = false.
Proof.
  induction s as [|c s IH]; simpl; [done|].
  destruct (is_space c) eqn:E; [done|]. unfold head_space. simpl. done.
Qed.

Lemma lstrip_id (s : str) : head_space s = false -> lstrip s = s.
Proof. destruct s as [|c s]; [done|]. unfold head_space. simpl. by intros ->. Qed.

Lemma lstrip_all_space (s : str) : lstrip s = [] <-> all_space s.
Proof.
  induction s as [|c s IH]; simpl.
  - split; [constructor | done].
  - destruct (is_space c) eqn:E.
    + rewrite IH. split; [by constructor | by inversion 1].
    + split; [done|]. inversion 1; congruence.
Qed.

Lemma head_space_reverse (s : str) : head_space (reverse s) = last_space s.
Proof. unfold head_space, last_space. by rewrite head_reverse. Qed.

Lemma last_space_reverse (s : str) : last_space (reverse s) = head_space s.
Proof. unfold head_space, last_space. by rewrite last_reverse. Qed.

Lemma rstrip_split (s : str) : exists ws, s = rstrip s ++ ws /\ all_space ws.
Proof.
  destruct (lstrip_split (reverse s)) as [ws [Hs Hws]].
  exists (reverse ws). split; [|by apply Forall_reverse].
  unfold rstrip. rewrite <- reverse_app, <- Hs. by rewrite reverse_involutive.
Qed.

Lemma rstrip_last (s : str) : last_space (rstrip s) = false.
Proof. unfold rstrip. rewrite last_space_reverse. apply lstrip_head. Qed.

Lemma rstrip_id (s : str) : last_space s = false -> rstrip s = s.
Proof.
  intros H. unfold rstrip. rewrite lstrip_id by (by rewrite head_space_reverse).
  apply reverse_involutive.
Qed.

Lemma rstrip_head (s : str) : head_space s = false -> head_space (rstrip s) = false.
Proof.
  intros H. destruct (rstrip_split s) as [ws [Hs _]].
  destruct (rstrip s) as [|c r] eqn:E; [done|].
  rewrite Hs in H. done.
Qed.

Lemma strip_split (s : str) :
  exists ws1 ws2, s = ws1 ++ strip s ++ ws2 /\ all_space ws1 /\ all_space ws2.
Proof.
  destruct (lstrip_split s) as [ws1 [Hs1 Hws1]].
  destruct (rstrip_split (lstrip s)) as [ws2 [Hs2 Hws2]].
  exists ws1, ws2. unfold strip. by rewrite <- Hs2.
Qed.

Lemma strip_ends (s : str) :
  head_space (strip s) = false /\ last_space (strip s) = false.
Proof.
  unfold strip. split; [apply rstrip_head, lstrip_head | apply rstrip_last].
Qed.

Lemma strip_id (s : str) :
  head_space s = false -> last_space s = false -> strip s = s.
Proof. intros Hh Hl. unfold strip. by rewrite lstrip_id, rstrip_id. Qed.

Lemma strip_all_space (s : str) : strip s = [] <-> all_space s.
Proof.
  split.
  - intros H. destruct (strip_split s) as [ws1 [ws2 [Hs [H1 H2]]]].
    rewrite H in Hs. rewrite Hs. by apply Forall_app.
  - intros H. apply lstrip_all_space in H. unfold strip. by rewrite H.
Qed.
End Strip.

End WhitespaceFacts.

Section ValidationExtras.
Import Text Eff Whitespace WhitespaceFacts Main.
Context `{U : Tables}.

(** X16. [validate_query] rejects exactly the texts made of whitespace only
    (the empty text included).  An accepted query is the text without its
    leading and trailing whitespace: it is not empty, neither starts nor
    ends with a whitespace character, and validating it again returns it
    unchanged. *)
Theorem validate_query_strips (v : str) :
  (validate_query v
   = inl (Exception $"ValueError" $"Query cannot be empty or just whitespace")
   <-> all_space v) /\
  (forall q, validate_query v = inr q ->
     q <> [] /\ head_space q = false /\ last_space q = false /\
     (exists ws1 ws2, v = ws1 ++ q ++ ws2 /\ all_space ws1 /\ all_space ws2) /\
     validate_query q = inr q).
Proof.
  unfold validate_query. cbv zeta. split.
  - rewrite <- strip_all_space. destruct (strip v); simpl; split; done.
  - intros q Hq. destruct (strip v) as [|c r] eqn:E; simpl in Hq; [discriminate|].
    injection Hq as <-. destruct (strip_ends v) as [Hh Hl]. rewrite E in Hh, Hl.
    split_and!; [done | done | done | |].
    + rewrite <- E. apply strip_split.
    + by rewrite strip_id.
Qed.

End ValidationExtras.

Section ValidationExamples.
Import Text Main.
(* The examples are ASCII text, run with the ASCII tables. *)
Local Existing Instance Text.ascii_tables.

Lemma validate_query_strips_witness :
  validate_query $"What is theft?" = inr $"What is theft?".
Proof.
  apply (proj2 (validate_query_strips ($" " ++ NL ++ $"What is theft?  "))
           $"What is theft?").
  vm_compute. reflexivity.
Defined.

End ValidationExamples.

(** ** app/vectorstore.py and the construction of the RAG system *)

Section StoreExtras.
Import Text Eff Rag VectorStore RagSystem RagFacts.
Context `{U : Tables}.

Variable Chroma Llm : Type.
Variable env : gmap str str.

(** X17. The constructor of the vector store manager: an explicit non-empty
    argument wins over the environment, the directory defaults to
    CHROMA_DB_PATH and then to "chroma_db_gemini"; without any API key it
    raises ValueError before the store is opened; a failure to open the store
    is raised as it is; and a manager it returns holds an opened store, so
    [get_retriever] on it never raises and returns a retriever of type
    "similarity_score_threshold" with the given k and threshold. *)
Theorem manager_init_outcomes
    (make_store : str -> str -> exn + Chroma)
    (persist_directory_arg google_api_key_arg : option str) :
  let directory :=
    or_else persist_directory_arg (default $"chroma_db_gemini" (env !! $"CHROMA_DB_PATH")) in
  let key := or_else google_api_key_arg (default [] (env !! $"GOOGLE_API_KEY")) in
  (key = [] ->
   VectorStoreManager_init Chroma env make_store persist_directory_arg google_api_key_arg
   = inl (Exception $"ValueError" $"GOOGLE_API_KEY not found in environment variables")) /\
  (key <> [] -> forall e, make_store directory key = inl e ->
   VectorStoreManager_init Chroma env make_store persist_directory_arg google_api_key_arg
   = inl e) /\
  (forall manager,
     VectorStoreManager_init Chroma env make_store persist_directory_arg google_api_key_arg
     = inr manager ->
     persist_directory Chroma manager = directory /\
     google_api_key Chroma manager = key /\ key <> [] /\
     exists store,
       make_store directory key = inr store /\
       forall k score_threshold,
         get_retriever Chroma manager k score_threshold
         = inr (mkRetriever Chroma store $"similarity_score_threshold" k score_threshold)).
Proof.
  intros directory key. unfold VectorStoreManager_init. fold directory key.
  split_and!.
  - by intros ->.
  - intros Hkey e He. destruct key; [done|]. simpl. by rewrite He.
  - intros manager. destruct key eqn:Ek; simpl; [discriminate|].
    destruct (make_store directory _) as [e | store] eqn:Es; [discriminate|].
    intros [= <-]. split_and!; try done. by exists store.
Qed.

(** X18. A manager that the constructor returns holds the store it opened,
    so the guard "Vector store not initialized" of [similarity_search] and
    [get_retriever] does not fire on it: [similarity_search] hands the query
    and [k] to the search of that store and passes its outcome on, the
    documents unchanged or the exception raised again; and [process_query]
    of a system built on that manager retrieves through the retriever of
    that store, of type "similarity_score_threshold". *)
Theorem constructed_manager_searches_its_store
    (make_store : str -> str -> exn + Chroma)
    (store_search : Chroma -> str -> nat -> exn + list Document)
    (persist_directory_arg google_api_key_arg : option str)
    (manager : VectorStoreManager Chroma) :
  VectorStoreManager_init Chroma env make_store persist_directory_arg google_api_key_arg
  = inr manager ->
  exists store,
    vector_store Chroma manager = Some store /\
    make_store (persist_directory Chroma manager) (google_api_key Chroma manager) = inr store /\
    (forall query k,
       similarity_search Chroma store_search manager query k = store_search store query k) /\
    (forall retriever_invoke llm_oracle prompt_template_format llm_model temperature client
            query t,
       system_process_query Chroma Llm retriever_invoke llm_oracle prompt_template_format
         (mkLegalRAGSystem Chroma Llm manager llm_model temperature client) query t
       = process_query
           (fun t k score_threshold q =>
              retriever_invoke t
                (mkRetriever Chroma store $"similarity_score_threshold" k score_threshold) q)
           llm_oracle prompt_template_format query t).
Proof.
  unfold VectorStoreManager_init.
  destruct (is_empty _); [discriminate|].
  destruct (make_store _ _) as [e | store] eqn:Hs; [discriminate|].
  intros [= <-]. exists store. split_and!; [done | done | |].
  - intros query k. unfold similarity_search. simpl.
    by destruct (store_search store query k).
  - intros retriever_invoke llm_oracle prompt_template_format llm_model temperature client
           query t.
    unfold system_process_query.
    by rewrite (process_query_via_retriever _ _ _ _ _ _ _
                  (mkRetriever Chroma store $"similarity_score_threshold" 10 (3 # 10))).
Qed.

(** X19. The two global accessors create their object at most once: as long
    as construction fails the global stays unset and the error is raised;
    once an object exists every later call returns that same object and
    leaves the global as it is, and [get_rag_system] then ignores the
    manager it is given. *)
Theorem accessors_are_singletons
    (make_store : str -> str -> exn + Chroma)
    (make_llm : str -> Q -> str -> exn + Llm)
    (manager other_manager : VectorStoreManager Chroma) :
  (forall system,
     get_rag_system Chroma Llm env make_llm other_manager (Some system)
     = (Some system, inr system)) /\
  (forall global' system,
     get_rag_system Chroma Llm env make_llm manager None = (global', inr system) ->
     global' = Some system /\
     vector_store_manager Chroma Llm system = manager /\
     llm_model Chroma Llm system = $"models/gemini-2.5-flash" /\
     temperature Chroma Llm system = 3 # 10 /\
     get_rag_system Chroma Llm env make_llm other_manager global' = (global', inr system)) /\
  (forall global' e,
     get_rag_system Chroma Llm env make_llm manager None = (global', inl e) ->
     global' = None) /\
  (forall m,
     get_vector_store_manager Chroma env make_store (Some m) = (Some m, inr m)) /\
  (forall global' outcome,
     get_vector_store_manager Chroma env make_store None = (global', outcome) ->
     match outcome with
     | inr m => global' = Some m
     | inl _ => global' = None
     end).
Proof.
  split_and!; try done.
  - intros global' system. unfold get_rag_system, LegalRAGSystem_init.
    destruct (is_empty _); [discriminate|].
    destruct (make_llm _ _ _); [discriminate|].
    intros [= <- <-]. by split_and!.
  - intros global' e. unfold get_rag_system.
    destruct (LegalRAGSystem_init _ _ _ _ _ _ _); [|discriminate]. by intros [= <- _].
  - intros global' outcome. unfold get_vector_store_manager.
    destruct (VectorStoreManager_init _ _ _ _ _); by intros [= <- <-].
Qed.

End StoreExtras.

Section StoreExamples.
(* The examples are ASCII text, run with the ASCII tables. *)
Local Existing Instance Text.ascii_tables.

Lemma manager_init_outcomes_witness :
  VectorStore.VectorStoreManager_init nat {[ $"GOOGLE_API_KEY" := $"k-123" ]}
    (fun _ _ => inl (Eff.Exception $"OSError" $"disk full")) (Some $"db") None
  = inl (Eff.Exception $"OSError" $"disk full").
Proof.
  apply (proj1 (proj2 (manager_init_outcomes nat {[ $"GOOGLE_API_KEY" := $"k-123" ]}
                         (fun _ _ => inl (Eff.Exception $"OSError" $"disk full"))
                         (Some $"db") None))).
  - vm_compute. discriminate.
  - reflexivity.
Defined.

Lemma constructed_manager_searches_its_store_witness :
  VectorStore.similarity_search nat
    (fun store _ _ => if (store =? 7)%nat
                      then inl (Eff.Exception $"ValueError" $"Expected a non-empty query")
                      else inr [])
    (VectorStore.mkVectorStoreManager nat $"db" $"k-123" (Some 7)) [] 10
  = inl (Eff.Exception $"ValueError" $"Expected a non-empty query").
Proof.
  destruct (constructed_manager_searches_its_store nat unit
              {[ $"GOOGLE_API_KEY" := $"k-123" ]} (fun _ _ => inr 7)
              (fun store _ _ => if (store =? 7)%nat
                                then inl (Eff.Exception $"ValueError" $"Expected a non-empty query")
                                else inr [])
              (Some $"db") None
              (VectorStore.mkVectorStoreManager nat $"db" $"k-123" (Some 7)))
    as [store [Hstore [_ [Hsearch _]]]].
  - vm_compute. reflexivity.
  - injection Hstore as <-. apply Hsearch.
Defined.

End StoreExamples.

(** ** app/main.py: the [/chat] endpoint *)

Section EndpointExtras.
Import Text Eff Rag VectorStore RagSystem RagFacts.
Context `{U : Tables}.

Variable Chroma Llm : Type.
Variable retriever_invoke : trace -> Retriever Chroma -> str -> exn + list Document.
Variable llm_oracle : trace -> str -> exn + str.
Variable prompt_template_format : str -> str -> str.
Variable validate_citation : Rag.Citation -> exn + Main.Citation.

Abbreviation endpoint :=
  (Main.chat Chroma Llm retriever_invoke llm_oracle prompt_template_format validate_citation).
Abbreviation pipeline :=
  (system_process_query Chroma Llm retriever_invoke llm_oracle prompt_template_format).

(** X20. The endpoint answers 503 "Service is not ready..." without calling
    the pipeline when no RAG system exists.  Otherwise it runs
    [process_query] once: whatever exception the pipeline raises becomes the
    same 500 response with the fixed detail "An error occurred while
    processing your query. Please try again.", and a result of the pipeline
    becomes a response with the same answer and [has_context] and an empty
    citation list, whatever the validation of citations would do. *)
Theorem chat_endpoint_outcomes
    (system : LegalRAGSystem Chroma Llm) (query : str) (t : trace) :
  endpoint None query t
  = (t, inl (Main.mkHTTPException 503 $"Service is not ready. Please try again in a moment.")) /\
  (forall t' e,
     pipeline system query t = (t', inl e) ->
     endpoint (Some system) query t
     = (t', inl (Main.mkHTTPException 500
                   $"An error occurred while processing your query. Please try again."))) /\
  (forall t' result,
     pipeline system query t = (t', inr result) ->
     endpoint (Some system) query t
     = (t', inr (Main.mkChatResponse (Rag.answer result) [] (Rag.has_context result)))).
Proof.
  split_and!; [done | |].
  - intros t' e Hrun. unfold Main.chat. by rewrite Hrun.
  - intros t' result Hrun. unfold Main.chat. rewrite Hrun.
    assert (Hcit : Rag.citations result = []).
    { unfold system_process_query in Hrun.
      destruct (_is_illegal_query query) eqn:Hq.
      - rewrite process_query_via_illegal in Hrun by done. by injection Hrun as _ <-.
      - destruct (get_retriever Chroma (vector_store_manager Chroma Llm system) 10 (3 # 10))
          as [e | retriever] eqn:Hg.
        + rewrite (process_query_via_no_retriever _ _ _ _ _ _ _ e) in Hrun by done.
          discriminate.
        + rewrite (process_query_via_retriever _ _ _ _ _ _ _ retriever) in Hrun by done.
          by destruct (process_query_result _ _ _ _ _ _ _ Hq Hrun)
            as [? [? [? [_ [_ [_ ?]]]]]]. }
    by rewrite Hcit.
Qed.

End EndpointExtras.

Section EndpointExamples.
(* The examples are ASCII text, run with the ASCII tables. *)
Local Existing Instance Text.ascii_tables.

Lemma chat_endpoint_outcomes_witness :
  let manager := VectorStore.mkVectorStoreManager nat $"db" $"k-123" (Some 7) in
  let system := RagSystem.mkLegalRAGSystem nat unit manager $"models/gemini-2.5-flash" (3 # 10) tt in
  Main.chat nat unit
    (fun _ _ _ => inl (Eff.Exception $"ConnectionError" $"embedding service unreachable"))
    (fun _ _ => inr $"unused") (fun c q => c ++ q)
    (fun _ => inl (Eff.Exception $"ValidationError" $"unused"))
    (Some system) $"What is theft?" []
  = ([Eff.EvRetrieve 10 (3 # 10) $"What is theft?"],
     inl (Main.mkHTTPException 500
            $"An error occurred while processing your query. Please try again.")).
Proof.
  intros manager system.
  apply (proj1 (proj2 (chat_endpoint_outcomes nat unit
                         (fun _ _ _ => inl (Eff.Exception $"ConnectionError"
                                              $"embedding service unreachable"))
                         (fun _ _ => inr $"unused") (fun c q => c ++ q)
                         (fun _ => inl (Eff.Exception $"ValidationError" $"unused"))
                         system $"What is theft?" []))
           _ (Eff.Exception $"ConnectionError" $"embedding service unreachable")).
  vm_compute. reflexivity.
Defined.

End EndpointExamples.

(** ** llm_fallback_gemini.py *)

Section GeminiExtras.
Import Text Safety Eff Legacy Whitespace WhitespaceFacts Gemini SafetyFacts LegacyFacts.
Context `{U : Tables}.

Variable GEMINI_MODEL : str.

(** X21. [generate] without an API key raises RuntimeError "Missing
    GEMINI_API_KEY in .env" without posting anything.  With a key it posts
    one request whose prompt is the system text, a blank line, "User: " and
    the user text: a failure of the request is raised as it is, a status
    other than 200 raises RuntimeError "Gemini API error <status>: <body>",
    and on status 200 the result is the candidate text without its leading
    and trailing whitespace. *)
Theorem generate_outcomes
    (GEMINI_API_KEY : str) (post : Request -> exn + Response) (system user : str) :
  let request :=
    {| url := $"https://generativelanguage.googleapis.com/v1beta/" ++ GEMINI_MODEL
              ++ $":generateContent";
       key := GEMINI_API_KEY;
       prompt := system ++ NL ++ NL ++ $"User: " ++ user;
       temperature := 4 # 10;
       maxOutputTokens := 450;
       timeout := 60 |} in
  (GEMINI_API_KEY = [] ->
   generate GEMINI_API_KEY GEMINI_MODEL post system user
   = inl (Exception $"RuntimeError" $"Missing GEMINI_API_KEY in .env")) /\
  (GEMINI_API_KEY <> [] ->
   (forall e, post request = inl e ->
      generate GEMINI_API_KEY GEMINI_MODEL post system user = inl e) /\
   (forall r, post request = inr r -> status_code r <> 200 ->
      generate GEMINI_API_KEY GEMINI_MODEL post system user
      = inl (Exception $"RuntimeError"
               ($"Gemini API error " ++ ascii_str (pretty (status_code r))
                ++ $": " ++ text r))) /\
   (forall r generated, post request = inr r -> status_code r = 200 ->
      candidate_text r = inr generated ->
      exists out ws1 ws2,
        generate GEMINI_API_KEY GEMINI_MODEL post system user = inr out /\
        generated = ws1 ++ out ++ ws2 /\ all_space ws1 /\ all_space ws2 /\
        head_space out = false /\ last_space out = false)).
Proof.
  intros request. unfold generate. fold request. split.
  - by intros ->.
  - intros Hkey. destruct GEMINI_API_KEY as [|c k]; [done|]. simpl Rag.is_empty. cbv iota.
    split_and!.
    + intros e ->. done.
    + intros r -> Hs. apply Nat.eqb_neq in Hs. by rewrite Hs.
    + intros r generated -> Hs Hc. rewrite Hs, Hc. simpl.
      destruct (strip_split generated) as [ws1 [ws2 [Hg [H1 H2]]]].
      destruct (strip_ends generated) as [Hh Hl].
      exists (strip generated), ws1, ws2. by split_and!.
Qed.

(** X22. The legacy handler on top of [generate]: a message classified
    [emergency] or [illegal] gets its canned response even when no API key
    is configured, while for any other message the missing key surfaces as
    RuntimeError "Missing GEMINI_API_KEY in .env"; with a key, the prompt
    posted for an [ok] message is the system style, a blank line, "User: "
    and the message. *)
Theorem handle_message_over_generate
    (FALLBACK_PROVIDER GEMINI_API_KEY : str)
    (post : trace -> Request -> exn + Response)
    (user_id : option str) (message : str) (t : trace) :
  let generate_oracle :=
    fun t system user => generate GEMINI_API_KEY GEMINI_MODEL (post t) system user in
  (classify (Some message) <> $"ok" ->
   handle_message FALLBACK_PROVIDER generate_oracle user_id message t
   = (t, inr {| reply := canned_response (classify (Some message));
                safety := classify (Some message);
                provider := $"rules" |})) /\
  (classify (Some message) = $"ok" -> GEMINI_API_KEY = [] ->
   handle_message FALLBACK_PROVIDER generate_oracle user_id message t
   = (t ++ [EvGenerate SYSTEM_STYLE message],
      inl (Exception $"RuntimeError" $"Missing GEMINI_API_KEY in .env"))) /\
  (classify (Some message) = $"ok" -> GEMINI_API_KEY <> [] ->
   forall e,
     post t {| url := $"https://generativelanguage.googleapis.com/v1beta/" ++ GEMINI_MODEL
                      ++ $":generateContent";
               key := GEMINI_API_KEY;
               prompt := SYSTEM_STYLE ++ NL ++ NL ++ $"User: " ++ message;
               temperature := 4 # 10;
               maxOutputTokens := 450;
               timeout := 60 |} = inl e ->
     handle_message FALLBACK_PROVIDER generate_oracle user_id message t
     = (t ++ [EvGenerate SYSTEM_STYLE message], inl e)).
Proof.
  intros generate_oracle. split_and!.
  - intros Hne. apply handle_message_blocked.
    destruct (classify_cases (Some message)) as [E | [E | E]]; auto. done.
  - intros Hok ->. by rewrite handle_message_ok.
  - intros Hok Hkey e He. rewrite handle_message_ok by done.
    unfold generate_oracle, generate.
    destruct GEMINI_API_KEY; [done|]. simpl Rag.is_empty. cbv iota zeta.
    by rewrite He.
Qed.

End GeminiExtras.

Section GeminiExamples.
(* The examples are ASCII text, run with the ASCII tables. *)
Local Existing Instance Text.ascii_tables.

Lemma generate_outcomes_witness :
  Gemini.generate $"k-123" $"models/gemini-2.5-flash"
    (fun _ => inr (Gemini.mkResponse 429 $"quota exceeded" (inr $"unused")))
    $"system" $"user"
  = inl (Eff.Exception $"RuntimeError" $"Gemini API error 429: quota exceeded").
Proof.
  apply (proj1 (proj2 (proj2 (generate_outcomes $"models/gemini-2.5-flash" $"k-123"
                                (fun _ => inr (Gemini.mkResponse 429 $"quota exceeded"
                                                 (inr $"unused")))
                                $"system" $"user") ltac:(discriminate)))
           (Gemini.mkResponse 429 $"quota exceeded" (inr $"unused")) eq_refl).
  simpl. lia.
Defined.

Lemma handle_message_over_generate_witness :
  Legacy.handle_message $"gemini"
    (fun t system user =>
       Gemini.generate [] $"models/gemini-2.5-flash" (fun _ => inr (Gemini.mkResponse 200 [] (inr [])))
         system user)
    None $"Can my landlord keep my deposit?" []
  = ([Eff.EvGenerate Legacy.SYSTEM_STYLE $"Can my landlord keep my deposit?"],
     inl (Eff.Exception $"RuntimeError" $"Missing GEMINI_API_KEY in .env")).
Proof.
  apply (proj1 (proj2 (handle_message_over_generate $"models/gemini-2.5-flash" $"gemini" []
                         (fun _ _ => inr (Gemini.mkResponse 200 [] (inr [])))
                         None $"Can my landlord keep my deposit?" []))).
  - vm_compute. reflexivity.
  - reflexivity.
Defined.

End GeminiExamples.

(** ** app.py: the [/chat] endpoint of the legacy application *)

Module LegacyAppFacts.
Import Text Safety Eff Legacy Whitespace LegacyApp SafetyFacts LegacyFacts.

Section Endpoint.
Context `{U : Tables}.
Variable FALLBACK_PROVIDER : str.
Variable generate_oracle : trace -> str -> str -> exn + str.
Variable parse_json : str -> option payload.

Lemma handle_message_user_id (user_id : option str) (message : str) (t : trace) :
  handle_message FALLBACK_PROVIDER generate_oracle user_id message t
  = handle_message FALLBACK_PROVIDER generate_oracle None message t.
Proof. reflexivity. Qed.

Lemma dispatch_string (user_id : option json) (s : str) (t : trace) :
  dispatch FALLBACK_PROVIDER generate_oracle user_id (Some (JString s)) t
  = if Rag.is_empty s then (t, inr EMPTY_MESSAGE)
    else handled FALLBACK_PROVIDER generate_oracle s t.
Proof.
  destruct s as [|c s]; [done|].
  unfold dispatch, handled, bind, ret.
  change (falsy (Some (JString (c :: s)))) with false. cbv iota.
  change (Rag.is_empty (c :: s)) with false. cbv iota beta.
  rewrite (handle_message_user_id (user_id_of user_id)).
  by destruct (handle_message _ _ _ _ _) as [t' [e | res]].
Qed.

(** The calls of a dispatch: none, or one generation call for a non-empty
    message that the classifier lets through. *)
Lemma dispatch_calls (user_id message : option json) (t : trace) :
  exists calls outcome,
    dispatch FALLBACK_PROVIDER generate_oracle user_id message t = (t ++ calls, outcome) /\
    (calls = [] \/
     exists s, s <> [] /\ classify (Some s) = $"ok" /\ message = Some (JString s) /\
               calls = [EvGenerate SYSTEM_STYLE s]) /\
    (forall status error, outcome = inr (JSONResponse status error) ->
       calls = [] /\ status = 400).
Proof.
  destruct message as [[ | s | ty truthy] | ].
  - exists [], (inr EMPTY_MESSAGE). rewrite app_nil_r.
    split_and!; [done | by left | by intros ? ? [= <- _]].
  - rewrite dispatch_string. destruct s as [|c s]; simpl Rag.is_empty; cbv iota.
    { exists [], (inr EMPTY_MESSAGE). rewrite app_nil_r.
      split_and!; [done | by left | by intros ? ? [= <- _]]. }
    unfold handled.
    destruct (classify_cases (Some (c :: s))) as [E | [E | E]].
    + rewrite handle_message_blocked by auto. eexists [], _. rewrite app_nil_r.
      split_and!; [done | by left | discriminate].
    + rewrite handle_message_blocked by auto. eexists [], _. rewrite app_nil_r.
      split_and!; [done | by left | discriminate].
    + rewrite handle_message_ok by done.
      destruct (generate_oracle _ _ _) as [e | out];
        (eexists [EvGenerate SYSTEM_STYLE (c :: s)], _;
         split_and!; [done | right; by exists (c :: s) | discriminate]).
  - unfold dispatch. simpl falsy. destruct truthy; simpl.
    + eexists [], _. rewrite app_nil_r. split_and!; [done | by left | discriminate].
    + exists [], (inr EMPTY_MESSAGE). rewrite app_nil_r.
      split_and!; [done | by left | by intros ? ? [= <- _]].
  - exists [], (inr EMPTY_MESSAGE). rewrite app_nil_r.
    split_and!; [done | by left | by intros ? ? [= <- _]].
Qed.
End Endpoint.

End LegacyAppFacts.

Section LegacyAppExtras.
Import Text Safety Eff Legacy Whitespace WhitespaceFacts LegacyApp LegacyAppFacts.
Context `{U : Tables}.

Variable FALLBACK_PROVIDER : str.
Variable generate_oracle : trace -> str -> str -> exn + str.
Variable parse_json : str -> option payload.

Abbreviation legacy_chat := (chat FALLBACK_PROVIDER generate_oracle parse_json).

(** X23. The legacy endpoint makes at most one generation call per request,
    and only for a message that is a non-empty string the classifier lets
    through, sent with the system style; whenever it answers with a JSON
    error response the status is 400 and no generation call was made. *)
Theorem chat_calls_only_for_nonempty_message
    (content_type_header : option str) (body : str) (t : trace) :
  exists calls outcome,
    legacy_chat content_type_header body t = (t ++ calls, outcome) /\
    (calls = [] \/
     exists message,
       message <> [] /\ classify (Some message) = $"ok" /\
       calls = [EvGenerate SYSTEM_STYLE message]) /\
    (forall status error, outcome = inr (JSONResponse status error) ->
       calls = [] /\ status = 400).
Proof.
  assert (Hd : forall user_id message,
            exists calls outcome,
              dispatch FALLBACK_PROVIDER generate_oracle user_id message t
              = (t ++ calls, outcome) /\
              (calls = [] \/
               exists m, m <> [] /\ classify (Some m) = $"ok" /\
                         calls = [EvGenerate SYSTEM_STYLE m]) /\
              (forall status error, outcome = inr (JSONResponse status error) ->
                 calls = [] /\ status = 400)).
  { intros user_id message.
    destruct (dispatch_calls FALLBACK_PROVIDER generate_oracle user_id message t)
      as [calls [outcome [Hrun [Hcalls Herr]]]].
    exists calls, outcome. split_and!; [done | | done].
    destruct Hcalls as [-> | [s [? [? [_ ->]]]]]; [by left | right; eauto]. }
  unfold chat. cbv zeta.
  destruct (contains _ _).
  - destruct (parse_json body) as [[fields | ty] | ].
    + apply Hd.
    + eexists [], _. rewrite app_nil_r. split_and!; [done | by left | discriminate].
    + exists [], (inr INVALID_JSON). rewrite app_nil_r.
      split_and!; [done | by left | by intros ? ? [= <- _]].
  - destruct (_ && _); [|apply Hd].
    destruct (parse_json _) as [[fields | ty] | ]; apply Hd.
Qed.

(** X24. How the legacy endpoint reads a request.  With a content type
    that contains "application/json" (in any case) a body that does not
    parse gives 400 "Invalid JSON...".  Otherwise the message is the body
    without its leading and trailing whitespace, unless that text is wrapped
    in braces and parses as a JSON object: a body of whitespace only gives
    400 "Empty message...", and any other body is handed to the handler
    stripped, also when it is wrapped in braces but does not parse. *)
Theorem chat_reads_request
    (content_type_header : option str) (body : str) (t : trace) :
  (contains $"application/json" (lower (default [] content_type_header)) = true ->
   parse_json body = None ->
   legacy_chat content_type_header body t
   = (t, inr (JSONResponse 400 $"Invalid JSON. Send {'message': '...'}."))) /\
  (contains $"application/json" (lower (default [] content_type_header)) = false ->
   (startswith $"{" (strip body) && endswith $"}" (strip body) = false \/
    parse_json (strip body) = None) ->
   (all_space body ->
    legacy_chat content_type_header body t
    = (t, inr (JSONResponse 400
                 $"Empty message. Send JSON {'message': '...'} or plain text body."))) /\
   (~ all_space body ->
    legacy_chat content_type_header body t
    = handled FALLBACK_PROVIDER generate_oracle (strip body) t)).
Proof.
  split.
  - intros Hct Hparse. unfold chat. cbv zeta. by rewrite Hct, Hparse.
  - intros Hct Hraw.
    assert (Hrun : legacy_chat content_type_header body t
                   = dispatch FALLBACK_PROVIDER generate_oracle None
                       (Some (JString (strip body))) t).
    { unfold chat. cbv zeta. rewrite Hct.
      destruct Hraw as [-> | Hparse]; [done|].
      rewrite Hparse. by destruct (_ && _). }
    rewrite Hrun, dispatch_string. split.
    + intros Hall. apply strip_all_space in Hall. by rewrite Hall.
    + intros Hnot. destruct (strip body) eqn:E; [|done].
      exfalso. by apply Hnot, strip_all_space.
Qed.

End LegacyAppExtras.

Section LegacyAppExamples.
(* The examples are ASCII text, run with the ASCII tables. *)
Local Existing Instance Text.ascii_tables.

Lemma chat_reads_request_witness :
  LegacyApp.chat $"gemini" (fun _ _ _ => inr $"unused") (fun _ => None)
    (Some $"text/plain") ($"  " ++ Text.NL) []
  = ([], inr (LegacyApp.JSONResponse 400
                $"Empty message. Send JSON {'message': '...'} or plain text body.")).
Proof.
  apply (proj2 (chat_reads_request $"gemini" (fun _ _ _ => inr $"unused") (fun _ => None)
                  (Some $"text/plain") ($"  " ++ Text.NL) [])).
  - vm_compute. reflexivity.
  - right. reflexivity.
  - repeat constructor.
Defined.

End LegacyAppExamples.

(** ** app/main.py: start-up *)

Section StartupExtras.
Import Text Eff Rag VectorStore RagSystem RagFacts.
Context `{U : Tables}.

Variable Chroma Llm : Type.
Variable env : gmap str str.
Variable make_store : str -> str -> exn + Chroma.
Variable make_llm : str -> Q -> str -> exn + Llm.

(** X25. Start-up without GOOGLE_API_KEY raises ValueError and leaves every
    global as it was, before any store is opened.  When start-up of a fresh
    process succeeds, one manager and one RAG system exist, shared by the
    globals of [main.py] and those of the accessors; the manager holds the
    opened store of the configured directory, and from then on the pipeline
    of that system searches through the external retriever of that store,
    of type "similarity_score_threshold" (never through the "not
    initialized" error). *)
Theorem startup_outcomes (g : Startup.Globals Chroma Llm) :
  (default [] (env !! $"GOOGLE_API_KEY") = [] ->
   forall make_store' make_llm',
     Startup.startup Chroma Llm env make_store' make_llm' g
     = (g, inl (Exception $"ValueError" $"GOOGLE_API_KEY environment variable is required"))) /\
  (forall g',
     Startup.startup Chroma Llm env make_store make_llm (Startup.fresh Chroma Llm) = (g', inr tt) ->
     exists store client,
       let directory := default $"chroma_db_gemini" (env !! $"CHROMA_DB_PATH") in
       let key := default [] (env !! $"GOOGLE_API_KEY") in
       let manager := mkVectorStoreManager Chroma directory key (Some store) in
       let system := mkLegalRAGSystem Chroma Llm manager $"models/gemini-2.5-flash" (3 # 10) client in
       make_store directory key = inr store /\
       make_llm $"models/gemini-2.5-flash" (3 # 10) key = inr client /\
       g' = Startup.mkGlobals Chroma Llm (Some manager) (Some system) (Some manager) (Some system) /\
       forall retriever_invoke llm_oracle prompt_template_format query,
         system_process_query Chroma Llm retriever_invoke llm_oracle prompt_template_format
           system query
         = process_query
             (fun t k score_threshold q =>
                retriever_invoke t
                  (mkRetriever Chroma store $"similarity_score_threshold" k score_threshold) q)
             llm_oracle prompt_template_format query).
Proof.
  split.
  - intros Hkey make_store' make_llm'. unfold Startup.startup. by rewrite Hkey.
  - intros g'.
    unfold Startup.startup, Startup.fresh, get_vector_store_manager, get_rag_system,
      VectorStoreManager_init, LegalRAGSystem_init, or_else.
    cbn [Startup._vector_store_manager Startup._rag_system
         Startup.vector_store_manager Startup.rag_system].
    cbv zeta.
    destruct (default [] (env !! $"GOOGLE_API_KEY")) as [|c key] eqn:Hkey;
      cbn [is_empty]; [discriminate|].
    destruct (make_store _ _) as [e | store] eqn:Hs; [discriminate|].
    destruct (make_llm _ _ _) as [e | client] eqn:Hl; [discriminate|].
    intros [= <-]. exists store, client. by split_and!.
Qed.

End StartupExtras.

Section StartupExamples.
(* The examples are ASCII text, run with the ASCII tables. *)
Local Existing Instance Text.ascii_tables.

Lemma startup_outcomes_witness :
  Startup.startup nat unit ∅ (fun _ _ => inr 0) (fun _ _ _ => inr tt)
    (Startup.fresh nat unit)
  = (Startup.fresh nat unit,
     inl (Eff.Exception $"ValueError" $"GOOGLE_API_KEY environment variable is required")).
Proof.
  apply (proj1 (startup_outcomes nat unit ∅ (fun _ _ => inr 0) (fun _ _ _ => inr tt)
                  (Startup.fresh nat unit))).
  reflexivity.
Defined.

End StartupExamples.
